(** * Offline-first synchronisation engine

    A shallow embedding of the local store ([IndexedDbService]), the request
    router ([OfflineInterceptor]) and the sync orchestrator ([SyncService]),
    with the properties of the engine stated over them.

    Conventions.  JavaScript numbers that hold keys, HTTP statuses and
    millisecond timestamps are integers ([Z]).  Opaque JSON bodies are
    [JsValue]s, with JavaScript truthiness written out because the code
    branches on it.  Asynchronous code is cut at its [await]s: every pending
    operation is a task of a pool, and a schedule chooses which pending
    operation completes next. *)

From stdpp Require Import gmap strings list pretty sorting.
From Stdlib Require Import ZArith Ascii.

Local Open Scope Z_scope.

(* ===================================================================== *)
(** ** JavaScript values *)
(* ===================================================================== *)

#[local] Unset Elimination Schemes.
Inductive JsValue :=
| JsUndefined
| JsNull
| JsBool (b : bool)
| JsNum (n : Z)
| JsStr (s : string)
| JsArr (items : list JsValue)
| JsObj (fields : list (string * JsValue)).
#[local] Set Elimination Schemes.

(** [if (v)]: [undefined], [null], [false], [0] and the empty string are
    falsy, every object and array is truthy. *)
Definition truthy (v : JsValue) : bool :=
  match v with
  | JsUndefined | JsNull => false
  | JsBool b => b
  | JsNum n => negb (n =? 0)
  | JsStr s => negb (String.eqb s "")
  | JsArr _ | JsObj _ => true
  end.

(** [null] and [undefined], the two values on which a property access
    ([v.status]) throws a [TypeError]. *)
Definition nullish (v : JsValue) : bool :=
  match v with
  | JsUndefined | JsNull => true
  | _ => false
  end.

(** [a || b] on values, numbers and strings. *)
Definition js_or (a b : JsValue) : JsValue := if truthy a then a else b.
Definition num_or (a b : Z) : Z := if a =? 0 then b else a.
Definition str_or (a b : string) : string := if String.eqb a "" then b else a.

(** [{}] *)
Definition emptyObject : JsValue := JsObj [].

(* ===================================================================== *)
(** ** http.utils *)
(* ===================================================================== *)

Module HTTP_METHODS.
Definition GET : string := "GET".
Definition POST : string := "POST".
Definition PUT : string := "PUT".
Definition DELETE : string := "DELETE".
End HTTP_METHODS.

Module HTTP_STATUS.
Definition OK : Z := 200.
Definition CREATED : Z := 201.
Definition BAD_REQUEST : Z := 400.
Definition NOT_FOUND : Z := 404.
Definition SERVICE_UNAVAILABLE : Z := 503.
End HTTP_STATUS.

Definition isMutationMethod (method : string) : bool :=
  String.eqb method HTTP_METHODS.POST
  || String.eqb method HTTP_METHODS.PUT
  || String.eqb method HTTP_METHODS.DELETE.

Definition isGetMethod (method : string) : bool :=
  String.eqb method HTTP_METHODS.GET.

Definition isClientError (status : Z) : bool :=
  (400 <=? status) && (status <? 500).

(* ===================================================================== *)
(** ** Models *)
(* ===================================================================== *)

(** Modelled from the spec: the [OutboxItem] interface of [../models] is
    not among the sources.  Its fields are those of the specification's
    PendingMutation under the names the code reads and writes ([id], [url],
    [method], [payload], [timestamp]).  The [outbox] object store has key
    path [id] and a key generator, so a stored record always carries its
    key. *)
Module OutboxItem.
Record t := mk {
  id : Z;
  url : string;
  method : string;
  payload : JsValue;
  timestamp : Z }.
End OutboxItem.

(** [Omit<OutboxItem, 'id'>], the argument of [addToOutbox]. *)
Module NewOutboxItem.
Record t := mk {
  url : string;
  method : string;
  payload : JsValue;
  timestamp : Z }.
End NewOutboxItem.

Module SyncConflict.
Record t := mk {
  id : Z;
  url : string;
  method : string;
  payload : JsValue;
  timestamp : Z;
  error : string }.
End SyncConflict.

(** [Omit<SyncConflict, 'id'>], the argument of [addToSyncConflicts]. *)
Module NewSyncConflict.
Record t := mk {
  url : string;
  method : string;
  payload : JsValue;
  timestamp : Z;
  error : string }.
End NewSyncConflict.

(** Modelled from the spec: the [CacheItem] interface of [../models] is not
    among the sources; the fields are those [cacheGet] writes. *)
Module CacheItem.
Record t := mk {
  key : string;
  data : JsValue;
  timestamp : Z }.
End CacheItem.

(** Modelled from the spec: the [SessionNote] interface of [../models] is
    not among the sources; the fields are those of the sample notes. *)
Module SessionNote.
Record t := mk {
  id : string;
  clientName : string;
  note : string;
  timestamp : Z;
  shiftDate : string }.
End SessionNote.

(* ===================================================================== *)
(** ** The opened store: IndexedDbService over an open database *)
(* ===================================================================== *)

(** The four object stores.  [outbox] and [syncConflicts] are kept in key
    order (a record is appended with the next generated key); [cache] and
    [sessionNotes] are keyed by a string.  In this part the database handle
    is open, so [init()] returns at its first line and
    [ensureDatabaseInitialized()] does not throw; opening is modelled in
    [Module Init]. *)
Record Store := mkStore {
  outbox : list OutboxItem.t;
  outboxKey : Z;
  syncConflicts : list SyncConflict.t;
  conflictsKey : Z;
  cache : gmap string CacheItem.t;
  sessionNotes : gmap string SessionNote.t }.

Definition emptyStore : Store := mkStore [] 1 [] 1 ∅ ∅.

Definition withOutbox (s : Store) (o : list OutboxItem.t) (k : Z) : Store :=
  mkStore o k (syncConflicts s) (conflictsKey s) (cache s) (sessionNotes s).

Definition withConflicts (s : Store) (c : list SyncConflict.t) (k : Z) : Store :=
  mkStore (outbox s) (outboxKey s) c k (cache s) (sessionNotes s).

Definition withCache (s : Store) (c : gmap string CacheItem.t) : Store :=
  mkStore (outbox s) (outboxKey s) (syncConflicts s) (conflictsKey s) c (sessionNotes s).

(** [addToOutbox]: [db.add('outbox', {...item, timestamp: item.timestamp || Date.now()})]. *)
Definition addToOutbox (now : Z) (item : NewOutboxItem.t) (s : Store) : Store * Z :=
  let stored :=
    OutboxItem.mk (outboxKey s) (NewOutboxItem.url item) (NewOutboxItem.method item)
      (NewOutboxItem.payload item) (num_or (NewOutboxItem.timestamp item) now) in
  (withOutbox s (outbox s ++ [stored]) (outboxKey s + 1), outboxKey s).

(** Order of the [by-timestamp] index: by index key, then by primary key. *)
Definition index_leb (a b : OutboxItem.t) : bool :=
  (OutboxItem.timestamp a <? OutboxItem.timestamp b)
  || ((OutboxItem.timestamp a =? OutboxItem.timestamp b)
      && (OutboxItem.id a <=? OutboxItem.id b)).

Fixpoint index_insert (x : OutboxItem.t) (l : list OutboxItem.t) : list OutboxItem.t :=
  match l with
  | [] => [x]
  | y :: l' => if index_leb x y then x :: y :: l' else y :: index_insert x l'
  end.

Fixpoint index_sort (l : list OutboxItem.t) : list OutboxItem.t :=
  match l with
  | [] => []
  | x :: l' => index_insert x (index_sort l')
  end.

(** [getOutbox]: [index('by-timestamp').getAll()]. *)
Definition getOutbox (s : Store) : list OutboxItem.t := index_sort (outbox s).

(** [removeFromOutbox]: [db.delete('outbox', id)]; an absent key is not an error. *)
Definition removeFromOutbox (id : Z) (s : Store) : Store :=
  withOutbox s (filter (λ it, OutboxItem.id it ≠ id) (outbox s)) (outboxKey s).

(** [addToSyncConflicts]. *)
Definition addToSyncConflicts (now : Z) (item : NewSyncConflict.t) (s : Store) : Store * Z :=
  let stored :=
    SyncConflict.mk (conflictsKey s) (NewSyncConflict.url item) (NewSyncConflict.method item)
      (NewSyncConflict.payload item) (num_or (NewSyncConflict.timestamp item) now)
      (NewSyncConflict.error item) in
  (withConflicts s (syncConflicts s ++ [stored]) (conflictsKey s + 1), conflictsKey s).

(** [removeSyncConflict]. *)
Definition removeSyncConflict (id : Z) (s : Store) : Store :=
  withConflicts s (filter (λ c, SyncConflict.id c ≠ id) (syncConflicts s)) (conflictsKey s).

(** [cacheGet]: [db.put('cache', {key, data, timestamp: Date.now()})]. *)
Definition cacheGet (now : Z) (key : string) (data : JsValue) (s : Store) : Store :=
  withCache s (<[key := CacheItem.mk key data now]> (cache s)).

(** [getCached]: [item ? item.data : null]. *)
Definition getCached (key : string) (s : Store) : JsValue :=
  match cache s !! key with
  | Some item => CacheItem.data item
  | None => JsNull
  end.

(** [clearCache]. *)
Definition clearCache (s : Store) : Store := withCache s ∅.

(* ===================================================================== *)
(** ** The request router: OfflineInterceptor *)
(* ===================================================================== *)

Record HttpRequest := mkRequest {
  req_method : string;
  req_url : string;
  req_body : JsValue }.

Record HttpResponse := mkResponse {
  status : Z;
  statusText : string;
  body : JsValue }.

Record HttpErrorResponse := mkError {
  err_status : Z;
  err_message : string }.

(** The events of an [Observable<HttpEvent>]: only an [HttpResponse] has
    both a [status] and a [body]. *)
Inductive HttpEvent :=
| EvSent
| EvHeaderResponse (st : Z)
| EvResponse (r : HttpResponse).

(** How an observable ends: [complete], [error] with an HTTP error,
    [error] with another value (the reason of a rejected promise), or not
    at all. *)
Inductive Ending :=
| Completes
| Errors (err : HttpErrorResponse)
| Throws (reason : string)
| Pending.

(** What a subscriber of an observable receives: the [next] values in
    order, then [complete], [error], or nothing more. *)
Record Observable := mkObservable {
  emitted : list HttpEvent;
  ending : Ending }.

(** [next.handle]: the rest of the handler chain, down to the network. *)
Definition HttpHandler := HttpRequest → Observable.

(** [from(promise)] of a promise resolved with a response. *)
Definition fromResolved (r : HttpResponse) : Observable :=
  mkObservable [EvResponse r] Completes.


(** What one intercepted request leaves behind. *)
Record Routed := mkRouted {
  store_after : Store;
  returned : Observable;
  forwarded : list HttpRequest }.

Definition createOfflineMutationResponse (method : string) (body : JsValue) : JsValue :=
  if String.eqb method "POST" then
    JsObj [("success", JsBool true);
           ("message", JsStr "Saved offline, will sync when online");
           ("data", body)]
  else if String.eqb method "PUT" then
    JsObj [("success", JsBool true);
           ("message", JsStr "Updated offline, will sync when online");
           ("data", body)]
  else if String.eqb method "DELETE" then
    JsObj [("success", JsBool true);
           ("message", JsStr "Delete queued offline, will sync when online")]
  else
    JsObj [("success", JsBool true);
           ("message", JsStr "Saved offline, will sync when online")].

Definition handleOfflineMutation (now : Z) (req : HttpRequest) (s : Store) : Routed :=
  let outboxItem :=
    NewOutboxItem.mk (req_url req) (req_method req) (js_or (req_body req) emptyObject) now in
  let '(s', _) := addToOutbox now outboxItem s in
  let responseBody := createOfflineMutationResponse (req_method req) (req_body req) in
  mkRouted s' (fromResolved (mkResponse HTTP_STATUS.OK "OK" responseBody)) [].

Definition createCachedResponse (data : JsValue) : HttpResponse :=
  mkResponse HTTP_STATUS.OK "OK (Cached)" data.

Definition createServiceUnavailableResponse : HttpResponse :=
  mkResponse HTTP_STATUS.SERVICE_UNAVAILABLE "Service Unavailable"
    (JsObj [("error", JsStr "No cached data available and device is offline")]).

Definition handleOfflineGet (req : HttpRequest) (s : Store) : Routed :=
  let cachedData := getCached (req_url req) s in
  if truthy cachedData
  then mkRouted s (fromResolved (createCachedResponse cachedData)) []
  else mkRouted s (fromResolved createServiceUnavailableResponse) [].

(** The [next] callback of [handleOnlineGet]: an event with a [status] and
    a [body] whose status is 200 is written to the cache (the write is not
    awaited); every event is passed on. *)
Definition cacheOnEvent (now : Z) (url : string) (s : Store) (event : HttpEvent) : Store :=
  match event with
  | EvResponse r => if status r =? HTTP_STATUS.OK then cacheGet now url (body r) s else s
  | EvSent | EvHeaderResponse _ => s
  end.

Definition handleOnlineGet (now : Z) (req : HttpRequest) (next : HttpHandler) (s : Store) : Routed :=
  let source := next req in
  mkRouted (fold_left (cacheOnEvent now (req_url req)) (emitted source) s)
    (mkObservable (emitted source) (ending source)) [req].

Definition intercept (isOnline : bool) (now : Z) (req : HttpRequest) (next : HttpHandler)
    (s : Store) : Routed :=
  let isMutation := isMutationMethod (req_method req) in
  let isGet := isGetMethod (req_method req) in
  if negb isOnline && isMutation then handleOfflineMutation now req s
  else if negb isOnline && isGet then handleOfflineGet req s
  else if isOnline && isGet then handleOnlineGet now req next s
  else mkRouted s (next req) [req].




(* ===================================================================== *)
(** ** The event loop *)
(* ===================================================================== *)

(** Single-threaded cooperative scheduling: a configuration is the shared
    state and the pending asynchronous operations; a schedule picks which
    pending operation completes next and what the clock reads then.  New
    operations queue up behind the pending ones. *)
Record Config (W T : Type) := mkConfig {
  world : W;
  pool : list T }.
Arguments mkConfig {W T} _ _.
Arguments world {W T} _.
Arguments pool {W T} _.

Record Choice := mkChoice {
  chosen : nat;
  clock : Z }.

Definition fire {W T : Type} (step : Z → T → W → W * list T)
    (c : Config W T) (ch : Choice) : Config W T :=
  match pool c !! chosen ch with
  | None => c
  | Some t =>
      let '(w, new) := step (clock ch) t (world c) in
      mkConfig w (delete (chosen ch) (pool c) ++ new)
  end.

Definition exec {W T : Type} (step : Z → T → W → W * list T)
    (sched : list Choice) (c : Config W T) : Config W T :=
  fold_left (fire step) sched c.

(** The schedule that always completes the oldest pending operation. *)
Definition oldestFirst (n : nat) : list Choice := replicate n (mkChoice 0 0).

(* ===================================================================== *)
(** ** The sync orchestrator: SyncService *)
(* ===================================================================== *)

Record SyncStatus := mkStatus {
  isSyncing : bool;
  totalItems : Z;
  completedItems : Z;
  failedItems : Z }.

(** How a replay call of [HttpClient] ends: [post], [put] and [delete]
    with default options emit the response body once and complete, or fail
    with an [HttpErrorResponse] (any non-2xx status, or status 0 when the
    network is unreachable). *)
Inductive CallOutcome :=
| Replied (response : JsValue)
| Failed (error : HttpErrorResponse).

(** The remote side, as the orchestrator sees it. *)
Definition Remote := OutboxItem.t → CallOutcome.

(** The HTTP activity of the orchestrator, oldest first: a request handed
    to [HttpClient], and the outcome delivered for a queued item. *)
Inductive NetEvent :=
| Issued (request : HttpRequest)
| Settled (item : OutboxItem.t) (outcome : CallOutcome).

Record World := mkWorld {
  store : Store;
  isOnline : bool;
  currentStatus : SyncStatus;
  published : list SyncStatus;
  network : list NetEvent }.

Definition withStore (w : World) (s : Store) : World :=
  mkWorld s (isOnline w) (currentStatus w) (published w) (network w).

Definition logNet (w : World) (e : NetEvent) : World :=
  mkWorld (store w) (isOnline w) (currentStatus w) (published w) (network w ++ [e]).

(** [updateStatus]: store the status and send it through [statusSubject]. *)
Definition updateStatus (st : SyncStatus) (w : World) : World :=
  mkWorld (store w) (isOnline w) st (published w ++ [st]) (network w).

Definition idleStatus : SyncStatus := mkStatus false 0 0 0.

(** A pending asynchronous operation of the service together with the code
    that runs when it completes.  [rest] is what [concatMap] still buffers.
    - [CallSync]: [sync()] has been called (by [triggerSync] or by the
      [online] listener) and runs next;
    - [AwaitGetOutbox]: [sync()] at [await this.indexedDb.getOutbox()];
    - [AwaitResponse]: [processItem] has subscribed to the HTTP call;
    - [AwaitRemoveReplayed]: [handleSuccessfulRequest] at
      [await removeFromOutbox(item.id)]; nobody awaits this handler, and the
      queue read that follows in it only feeds a log line;
    - [AwaitAddConflict], [AwaitRemoveConflicted]: [handleClientError] at
      its two [await]s;
    - [AwaitRemaining]: [handleSyncComplete] at [await getOutbox()]. *)
Inductive Task :=
| CallSync
| AwaitGetOutbox
| AwaitResponse (item : OutboxItem.t) (rest : list OutboxItem.t)
| AwaitRemoveReplayed (item : OutboxItem.t)
| AwaitAddConflict (item : OutboxItem.t) (error : HttpErrorResponse) (rest : list OutboxItem.t)
| AwaitRemoveConflicted (item : OutboxItem.t) (rest : list OutboxItem.t)
| AwaitRemaining.

Definition shouldSkipSync (w : World) : bool :=
  isSyncing (currentStatus w) || negb (isOnline w).

Definition startSync (total : Z) (w : World) : World :=
  updateStatus (mkStatus true total 0 0) w.

Definition incrementCompletedItems (w : World) : World :=
  let st := currentStatus w in
  updateStatus (mkStatus (isSyncing st) (totalItems st) (completedItems st + 1) (failedItems st)) w.

Definition handleServerError (w : World) : World :=
  let st := currentStatus w in
  updateStatus (mkStatus false (totalItems st) (completedItems st) (failedItems st)) w.

(** [!!item.id], also the [if (item.id)] of the two handlers. *)
Definition hasValidItemId (item : OutboxItem.t) : bool :=
  negb (OutboxItem.id item =? 0).

(** [createHttpRequest]: the request sent, or [None] where it throws
    [Unsupported method].  [http.delete] sends no body.  The constant
    [Content-Type] header is left out. *)
Definition createHttpRequest (item : OutboxItem.t) : option HttpRequest :=
  let m := OutboxItem.method item in
  if String.eqb m "POST" then
    Some (mkRequest "POST" (OutboxItem.url item) (OutboxItem.payload item))
  else if String.eqb m "PUT" then
    Some (mkRequest "PUT" (OutboxItem.url item) (OutboxItem.payload item))
  else if String.eqb m "DELETE" then
    Some (mkRequest "DELETE" (OutboxItem.url item) JsNull)
  else None.

(** [processItem] as [concatMap] calls it.  A throw inside the projection
    goes to the [error] callback of the subscription, which only logs: the
    drain ends there. *)
Definition processItem (item : OutboxItem.t) (rest : list OutboxItem.t) (w : World)
    : World * list Task :=
  if hasValidItemId item then
    match createHttpRequest item with
    | Some request => (logNet w (Issued request), [AwaitResponse item rest])
    | None => (w, [])
    end
  else (w, []).

(** [concatMap] moving on: the next buffered item, or [complete], which
    runs [handleSyncComplete] up to its [await]. *)
Definition subscribeNext (rest : list OutboxItem.t) (w : World) : World * list Task :=
  match rest with
  | [] => (w, [AwaitRemaining])
  | item :: rest' => processItem item rest' w
  end.

Definition processOutboxItems (outboxItems : list OutboxItem.t) (w : World)
    : World * list Task :=
  subscribeNext outboxItems w.

(** [error.message || `HTTP ${error.status}`] *)
Definition conflictError (error : HttpErrorResponse) : string :=
  str_or (err_message error) ("HTTP " +:+ pretty (err_status error)).

Definition conflictOf (item : OutboxItem.t) (error : HttpErrorResponse) : NewSyncConflict.t :=
  NewSyncConflict.mk (OutboxItem.url item) (OutboxItem.method item) (OutboxItem.payload item)
    (OutboxItem.timestamp item) (conflictError error).

(** The end of [handleClientError], and [handleSyncError] returning
    [EMPTY]: the inner observable completes and [concatMap] moves on. *)
Definition finishClientError (rest : list OutboxItem.t) (w : World) : World * list Task :=
  let st := currentStatus w in
  subscribeNext rest
    (updateStatus
       (mkStatus (isSyncing st) (totalItems st) (completedItems st + 1) (failedItems st + 1)) w).

(** [handleSuccessfulRequest] up to its first [await].  Its log line reads
    [response.status], which throws on a [null] or [undefined] response;
    nobody awaits the handler, so the rejection is lost and nothing is
    removed.  Otherwise, [if (item.id)], the removal is started. *)
Definition handleSuccessfulRequest (item : OutboxItem.t) (response : JsValue) : list Task :=
  if nullish response then []
  else if hasValidItemId item then [AwaitRemoveReplayed item] else [].

(** One pending operation completes, and its continuation runs up to the
    next [await].  [now] is what [Date.now()] reads meanwhile.  The result
    is the new world and the operations now pending in place of [t]. *)
Definition step (remote : Remote) (now : Z) (t : Task) (w : World) : World * list Task :=
  match t with
  | CallSync =>
      if shouldSkipSync w then (w, []) else (w, [AwaitGetOutbox])
  | AwaitGetOutbox =>
      let outboxItems := getOutbox (store w) in
      if (length outboxItems =? 0)%nat then (w, [])
      else processOutboxItems outboxItems (startSync (Z.of_nat (length outboxItems)) w)
  | AwaitResponse item rest =>
      let w1 := logNet w (Settled item (remote item)) in
      match remote item with
      | Replied response =>
          let removal := handleSuccessfulRequest item response in
          let '(w2, next) := subscribeNext rest (incrementCompletedItems w1) in
          (w2, removal ++ next)
      | Failed error =>
          if isClientError (err_status error)
          then (w1, [AwaitAddConflict item error rest])
          else (handleServerError w1, [])
      end
  | AwaitRemoveReplayed item =>
      (withStore w (removeFromOutbox (OutboxItem.id item) (store w)), [])
  | AwaitAddConflict item error rest =>
      let w1 := withStore w (fst (addToSyncConflicts now (conflictOf item error) (store w))) in
      if hasValidItemId item then (w1, [AwaitRemoveConflicted item rest])
      else finishClientError rest w1
  | AwaitRemoveConflicted item rest =>
      finishClientError rest (withStore w (removeFromOutbox (OutboxItem.id item) (store w)))
  | AwaitRemaining =>
      (updateStatus idleStatus w, [])
  end.

(** Operations of a drain that has started and neither finished nor halted. *)
Definition isDrainTask (t : Task) : bool :=
  match t with
  | AwaitResponse _ _ | AwaitAddConflict _ _ _ | AwaitRemoveConflicted _ _ | AwaitRemaining => true
  | CallSync | AwaitGetOutbox | AwaitRemoveReplayed _ => false
  end.

Definition activeDrains (c : Config World Task) : nat := length (filter (λ t, isDrainTask t = true) (pool c)).

(* ===================================================================== *)
(** ** Opening the store: IndexedDbService.init *)
(* ===================================================================== *)

Module Init.

(** The database as the browser holds it.  A database that does not exist
    yet has version 0 and no object store. *)
Record Database := mkDatabase {
  version : Z;
  objectStoreNames : gset string;
  noteRecords : gmap string SessionNote.t }.

(** The service ([db] is [this.db], a handle numbered by order of
    opening), the browser's database, and two counters: the handles that
    [openDB] has returned and the [upgrade] callbacks that have run. *)
Record State := mkState {
  database : Database;
  db : option nat;
  handles : nat;
  upgrades : nat }.

Inductive Task :=
| CallInit
| AwaitOpenDB
| AwaitCount
| AwaitAdd (note : SessionNote.t) (rest : list SessionNote.t).

Definition dbVersion : Z := 3.

(** The [upgrade] callback: each missing object store is created. *)
Definition upgrade (names : gset string) : gset string :=
  names ∪ {["outbox"]} ∪ {["syncConflicts"]} ∪ {["cache"]} ∪ {["sessionNotes"]}.

(** [openDB(name, version, {upgrade})] of the idb library: a stored version
    above the requested one rejects, one below it runs [upgrade] in a
    version-change transaction, an equal one opens the database as it is.
    The result is the database and whether [upgrade] ran. *)
Definition openDB (d : Database) : option (Database * bool) :=
  if dbVersion <? version d then None
  else if version d <? dbVersion then
    Some (mkDatabase dbVersion (upgrade (objectStoreNames d)) (noteRecords d), true)
  else Some (d, false).

Section Samples.

(** [new Date(ms).toISOString().split('T')[0]] *)
Variable isoDate : Z → string.

Definition sampleNotes (now : Z) : list SessionNote.t :=
  [ SessionNote.mk "1" "John Doe"
      "Completed daily activities. Client was responsive and engaged."
      (now - 86400000) (isoDate (now - 86400000));
    SessionNote.mk "2" "Jane Smith"
      "Assisted with meal preparation and medication administration."
      (now - 172800000) (isoDate (now - 172800000)) ].

(** The loop of [initializeSampleData] entering its next iteration. *)
Definition addNext (notes : list SessionNote.t) (st : State) : State * list Task :=
  match notes with
  | [] => (st, [])
  | note :: rest => (st, [AwaitAdd note rest])
  end.

Definition step (now : Z) (t : Task) (st : State) : State * list Task :=
  match t with
  | CallInit =>
      match db st with
      | Some _ => (st, [])
      | None => (st, [AwaitOpenDB])
      end
  | AwaitOpenDB =>
      match openDB (database st) with
      | None => (st, [])
      | Some (d, upgraded) =>
          let st' :=
            mkState d (Some (handles st)) (S (handles st))
              (if upgraded then S (upgrades st) else upgrades st) in
          if bool_decide ("sessionNotes" ∈ objectStoreNames d)
          then (st', [AwaitCount])
          else (st', [])
      end
  | AwaitCount =>
      if (size (noteRecords (database st)) =? 0)%nat
      then addNext (sampleNotes now) st
      else (st, [])
  | AwaitAdd note rest =>
      let d := database st in
      match noteRecords d !! SessionNote.id note with
      | Some _ => (st, [])
      | None =>
          addNext rest
            (mkState
               (mkDatabase (version d) (objectStoreNames d)
                  (<[SessionNote.id note := note]> (noteRecords d)))
               (db st) (handles st) (upgrades st))
      end
  end.

End Samples.

(** A browser profile that has never opened the database. *)
Definition fresh : State := mkState (mkDatabase 0 ∅ ∅) None 0 0.

End Init.

(* ===================================================================== *)
(** ** Vocabulary of the statements *)
(* ===================================================================== *)

(** The invariant of the [outbox] object store: keys are generated in
    increasing order starting at 1 and never reused. *)
Definition outbox_wf (s : Store) : Prop :=
  StronglySorted (λ a b, OutboxItem.id a < OutboxItem.id b) (outbox s)
  ∧ Forall (λ it, 0 < OutboxItem.id it < outboxKey s) (outbox s)
  ∧ 0 < outboxKey s.

(** Every queued record is a mutation the router may have queued. *)
Definition pendingMutations (l : list OutboxItem.t) : Prop :=
  Forall (λ it, isMutationMethod (OutboxItem.method it) = true) l.

(** The order in which the [by-timestamp] index lists the queue: by
    timestamp, records with equal timestamps by key, that is, by insertion. *)
Definition indexOrder (a b : OutboxItem.t) : Prop :=
  OutboxItem.timestamp a < OutboxItem.timestamp b
  ∨ (OutboxItem.timestamp a = OutboxItem.timestamp b ∧ OutboxItem.id a ≤ OutboxItem.id b).

(** Timestamps do not decrease along the queue. *)
Definition enqueuedInTimeOrder (l : list OutboxItem.t) : Prop :=
  StronglySorted (λ a b, OutboxItem.timestamp a ≤ OutboxItem.timestamp b) l.

(** The remote call a queued mutation stands for: its method and url, with
    its payload as body, a DELETE carrying none. *)
Definition callOf (item : OutboxItem.t) : HttpRequest :=
  mkRequest (OutboxItem.method item) (OutboxItem.url item)
    (if String.eqb (OutboxItem.method item) "DELETE" then JsNull
     else OutboxItem.payload item).

(** What one replay adds to the HTTP log. *)
Definition exchange (remote : Remote) (item : OutboxItem.t) : list NetEvent :=
  [Issued (callOf item); Settled item (remote item)].

Definition replay (remote : Remote) (items : list OutboxItem.t) : list NetEvent :=
  flat_map (exchange remote) items.

(** No call is issued while another one is in flight. *)
Fixpoint sequentialFrom (busy : bool) (net : list NetEvent) : bool :=
  match net with
  | [] => true
  | Issued _ :: net' => negb busy && sequentialFrom true net'
  | Settled _ _ :: net' => busy && sequentialFrom false net'
  end.

Definition oneInFlight (net : list NetEvent) : bool := sequentialFrom false net.

(** The drain goes on after this item: the call succeeded or was rejected
    with a client error. *)
Definition continuing (remote : Remote) (item : OutboxItem.t) : bool :=
  match remote item with
  | Replied _ => true
  | Failed error => isClientError (err_status error)
  end.

(** The drain takes this item out of the queue once it has dealt with it:
    the call was answered with a response that is not [null] or
    [undefined], or it was rejected with a client error. *)
Definition dequeued (remote : Remote) (item : OutboxItem.t) : bool :=
  match remote item with
  | Replied response => negb (nullish response)
  | Failed error => isClientError (err_status error)
  end.

(** The keys of [items] that such a drain takes out of the queue. *)
Definition dequeuedKeys (remote : Remote) (items : list OutboxItem.t) : list Z :=
  OutboxItem.id <$> filter (λ it, dequeued remote it = true) items.

(** The items a drain of [items] gets through, and the item it halts on. *)
Fixpoint handled (remote : Remote) (items : list OutboxItem.t) : list OutboxItem.t :=
  match items with
  | [] => []
  | item :: rest => if continuing remote item then item :: handled remote rest else []
  end.

Fixpoint halting (remote : Remote) (items : list OutboxItem.t) : option OutboxItem.t :=
  match items with
  | [] => None
  | item :: rest => if continuing remote item then halting remote rest else Some item
  end.

(** The items a drain of [items] sends to the remote side. *)
Definition attempted (remote : Remote) (items : list OutboxItem.t) : list OutboxItem.t :=
  handled remote items ++ option_list (halting remote items).

(** The client errors among [items], each with the error received. *)
Fixpoint conflictsFor (remote : Remote) (items : list OutboxItem.t)
    : list (OutboxItem.t * HttpErrorResponse) :=
  match items with
  | [] => []
  | item :: rest =>
      match remote item with
      | Failed error =>
          if isClientError (err_status error)
          then (item, error) :: conflictsFor remote rest
          else conflictsFor remote rest
      | Replied _ => conflictsFor remote rest
      end
  end.

(** A conflict record made from a queued item and the error it received. *)
Definition recordsConflict (p : OutboxItem.t * HttpErrorResponse) (c : SyncConflict.t) : Prop :=
  SyncConflict.url c = OutboxItem.url p.1
  ∧ SyncConflict.method c = OutboxItem.method p.1
  ∧ SyncConflict.payload c = OutboxItem.payload p.1
  ∧ SyncConflict.error c = conflictError p.2
  ∧ (OutboxItem.timestamp p.1 ≠ 0 → SyncConflict.timestamp c = OutboxItem.timestamp p.1).

(** The status while draining [total] items, once [done] have been handled. *)
Definition statusAfter (remote : Remote) (total : Z) (done : list OutboxItem.t) : SyncStatus :=
  mkStatus true total (Z.of_nat (length done)) (Z.of_nat (length (conflictsFor remote done))).

(** The status a halted drain leaves. *)
Definition haltedStatus (remote : Remote) (total : Z) (done : list OutboxItem.t) : SyncStatus :=
  mkStatus false total (Z.of_nat (length done)) (Z.of_nat (length (conflictsFor remote done))).

(** The status a drain of [items] ends with. *)
Definition finalStatus (remote : Remote) (total : Z) (items : list OutboxItem.t) : SyncStatus :=
  match halting remote items with
  | Some _ => haltedStatus remote total (handled remote items)
  | None => idleStatus
  end.

(** All prefixes of a list, shortest first. *)
Fixpoint prefixes {A : Type} (l : list A) : list (list A) :=
  [] :: match l with
        | [] => []
        | x :: l' => map (cons x) (prefixes l')
        end.

(** The work left in a configuration, for termination: each pending
    operation weighs more than all it can still spawn. *)
Definition load {W T : Type} (weight : W → T → nat) (c : Config W T) : nat :=
  sum_list_with (weight (world c)) (pool c).

Definition taskWeight (w : World) (t : Task) : nat :=
  match t with
  | CallSync => 4 * length (outbox (store w)) + 7
  | AwaitGetOutbox => 4 * length (outbox (store w)) + 6
  | AwaitResponse _ rest => 4 * length rest + 5
  | AwaitAddConflict _ _ rest => 4 * length rest + 4
  | AwaitRemoveConflicted _ rest => 4 * length rest + 3
  | AwaitRemoveReplayed _ => 1
  | AwaitRemaining => 1
  end%nat.

(** A queued record that [processItem] accepts. *)
Definition replayable (item : OutboxItem.t) : Prop :=
  OutboxItem.id item ≠ 0 ∧ isMutationMethod (OutboxItem.method item) = true.

(** *** The invariant of one drain

    One call of [sync()] on the world [w0], the remote side answering by
    [remote].  The drain itself is sequential: at any time it waits for at
    most one operation, and what it has published, logged and recorded is
    determined by the items [done] it has dealt with.  Beside it, the
    removals of replayed items are pending, in any number; the keys
    removed and those whose removal is pending are the [dequeuedKeys] of
    [done]. *)
Section DrainInvariant.

Variables (remote : Remote) (w0 : World).

Definition snapshot : list OutboxItem.t := getOutbox (store w0).
Definition total : Z := Z.of_nat (length snapshot).

(** What the world shows beyond [w0]. *)
Definition Shows (w : World) (pubs : list SyncStatus) (st : SyncStatus)
    (added : list SyncConflict.t) (net : list NetEvent) : Prop :=
  published w = published w0 ++ pubs
  ∧ currentStatus w = st
  ∧ syncConflicts (store w) = syncConflicts (store w0) ++ added
  ∧ network w = network w0 ++ net.

Definition statuses (done : list OutboxItem.t) : list SyncStatus :=
  statusAfter remote total <$> prefixes done.

Inductive Phase (w : World) : list Task → list OutboxItem.t → Prop :=
| PhCall :
    isOnline w = true →
    Shows w [] (currentStatus w0) [] [] →
    Phase w [CallSync] []
| PhSnapshot :
    Shows w [] (currentStatus w0) [] [] →
    Phase w [AwaitGetOutbox] []
| PhResponse done item rest added :
    snapshot = done ++ item :: rest →
    Forall (λ it, continuing remote it = true) done →
    Shows w (statuses done) (statusAfter remote total done) added
      (replay remote done ++ [Issued (callOf item)]) →
    Forall2 recordsConflict (conflictsFor remote done) added →
    Phase w [AwaitResponse item rest] done
| PhAdd done item error rest added :
    snapshot = done ++ item :: rest →
    Forall (λ it, continuing remote it = true) done →
    remote item = Failed error →
    isClientError (err_status error) = true →
    Shows w (statuses done) (statusAfter remote total done) added
      (replay remote (done ++ [item])) →
    Forall2 recordsConflict (conflictsFor remote done) added →
    Phase w [AwaitAddConflict item error rest] done
| PhRemove done item error rest added :
    snapshot = done ++ item :: rest →
    Forall (λ it, continuing remote it = true) done →
    remote item = Failed error →
    isClientError (err_status error) = true →
    Shows w (statuses done) (statusAfter remote total done) added
      (replay remote (done ++ [item])) →
    Forall2 recordsConflict (conflictsFor remote (done ++ [item])) added →
    Phase w [AwaitRemoveConflicted item rest] done
| PhRemaining added :
    Forall (λ it, continuing remote it = true) snapshot →
    Shows w (statuses snapshot) (statusAfter remote total snapshot) added
      (replay remote snapshot) →
    Forall2 recordsConflict (conflictsFor remote snapshot) added →
    Phase w [AwaitRemaining] snapshot
| PhFinished added :
    Forall (λ it, continuing remote it = true) snapshot →
    Shows w (statuses snapshot ++ [idleStatus]) idleStatus added (replay remote snapshot) →
    Forall2 recordsConflict (conflictsFor remote snapshot) added →
    Phase w [] snapshot
| PhNothing :
    snapshot = [] →
    Shows w [] (currentStatus w0) [] [] →
    Phase w [] []
| PhHalted done item error rest added :
    snapshot = done ++ item :: rest →
    Forall (λ it, continuing remote it = true) done →
    remote item = Failed error →
    isClientError (err_status error) = false →
    Shows w (statuses done ++ [haltedStatus remote total done])
      (haltedStatus remote total done) added (replay remote (done ++ [item])) →
    Forall2 recordsConflict (conflictsFor remote done) added →
    Phase w [] done.

Definition DrainInv (c : Config World Task) : Prop :=
  ∃ mains pend removed done,
    pool c ≡ₚ mains ++ (AwaitRemoveReplayed <$> pend)
    ∧ outbox (store (world c))
      = filter (λ it, OutboxItem.id it ∉ removed) (outbox (store w0))
    ∧ removed ++ (OutboxItem.id <$> pend) ≡ₚ dequeuedKeys remote done
    ∧ Phase (world c) mains done.

End DrainInvariant.

(** Example data of the statements. *)
Definition noNetwork : HttpHandler := λ _, mkObservable [] Pending.

Definition replies (st : Z) (b : JsValue) : HttpHandler :=
  λ _, mkObservable [EvResponse (mkResponse st "" b)] Completes.

Definition putNote : OutboxItem.t :=
  OutboxItem.mk 1 "/api/session-notes/1" "PUT" (JsObj [("note", JsStr "x")]) 1000.

Definition postNote : OutboxItem.t :=
  OutboxItem.mk 2 "/api/session-notes" "POST" (JsObj [("note", JsStr "y")]) 1000.

Definition deleteNote : OutboxItem.t :=
  OutboxItem.mk 3 "/api/session-notes/2" "DELETE" emptyObject 1005.

Definition queued (items : list OutboxItem.t) (key : Z) : World :=
  mkWorld (mkStore items key [] 1 ∅ ∅) true idleStatus [] [].

(** [{ success: true }], the body the mock backend answers a DELETE with. *)
Definition okBody : JsValue := JsObj [("success", JsBool true)].

(** Accepts every call and answers with a body. *)
Definition accepts : Remote := λ _, Replied okBody.

(** Accepts every call and answers without a body, as a 204 does. *)
Definition acceptsEmpty : Remote := λ _, Replied JsNull.

(** Answers [st] to the item with key [k], accepts the others. *)
Definition rejects (k : Z) (st : Z) : Remote :=
  λ it, if OutboxItem.id it =? k then Failed (mkError st "") else Replied okBody.

(* ===================================================================== *)
(** ** The rest of IndexedDbService *)
(* ===================================================================== *)

(** Sorting as the store and [Array.prototype.sort] do it: the result is
    ordered by [leb] and records that [leb] does not separate keep the
    order they had (the sort is stable). *)
Fixpoint insertBy {A : Type} (leb : A → A → bool) (x : A) (l : list A) : list A :=
  match l with
  | [] => [x]
  | y :: l' => if leb x y then x :: y :: l' else y :: insertBy leb x l'
  end.

Fixpoint sortBy {A : Type} (leb : A → A → bool) (l : list A) : list A :=
  match l with
  | [] => []
  | x :: l' => insertBy leb x (sortBy leb l')
  end.

(** Order of the [by-timestamp] index of [syncConflicts]. *)
Definition conflict_leb (a b : SyncConflict.t) : bool :=
  (SyncConflict.timestamp a <? SyncConflict.timestamp b)
  || ((SyncConflict.timestamp a =? SyncConflict.timestamp b)
      && (SyncConflict.id a <=? SyncConflict.id b)).

(** [getSyncConflicts]: [index('by-timestamp').getAll()]. *)
Definition getSyncConflicts (s : Store) : list SyncConflict.t :=
  sortBy conflict_leb (syncConflicts s).

(** [Omit<SessionNote, 'id'>], the argument of [addSessionNote]. *)
Module NewSessionNote.
Record t := mk {
  clientName : string;
  note : string;
  timestamp : Z;
  shiftDate : string }.
End NewSessionNote.

Definition withSessionNotes (s : Store) (n : gmap string SessionNote.t) : Store :=
  mkStore (outbox s) (outboxKey s) (syncConflicts s) (conflictsKey s) (cache s) n.

(** Order of the [by-timestamp] index of [sessionNotes]: by timestamp, then
    by key, and keys are strings. *)
Definition note_leb (a b : SessionNote.t) : bool :=
  (SessionNote.timestamp a <? SessionNote.timestamp b)
  || ((SessionNote.timestamp a =? SessionNote.timestamp b)
      && String.leb (SessionNote.id a) (SessionNote.id b)).

(** [sortNotesByTimestamp]: [notes.sort((a, b) => b.timestamp - a.timestamp)]. *)
Definition sortNotesByTimestamp (notes : list SessionNote.t) : list SessionNote.t :=
  sortBy (λ a b, SessionNote.timestamp b <=? SessionNote.timestamp a) notes.

(** [getSessionNotes]: the store exists in an opened store, so the notes
    are read through the [by-timestamp] index and sorted. *)
Definition getSessionNotes (s : Store) : list SessionNote.t :=
  sortNotesByTimestamp (sortBy note_leb (map_to_list (sessionNotes s)).*2).

(** [addSessionNote]: the key is [Date.now().toString()]; [db.add] rejects
    with a constraint error, here [None], when the key is taken. *)
Definition addSessionNote (now : Z) (note : NewSessionNote.t) (s : Store)
    : option (Store * string) :=
  let id := pretty now in
  let sessionNote :=
    SessionNote.mk id (NewSessionNote.clientName note) (NewSessionNote.note note)
      (num_or (NewSessionNote.timestamp note) now) (NewSessionNote.shiftDate note) in
  match sessionNotes s !! id with
  | Some _ => None
  | None => Some (withSessionNotes s (<[id := sessionNote]> (sessionNotes s)), id)
  end.

(** [updateSessionNote]: [db.put('sessionNotes', note)]. *)
Definition updateSessionNote (note : SessionNote.t) (s : Store) : Store :=
  withSessionNotes s (<[SessionNote.id note := note]> (sessionNotes s)).

(** [deleteSessionNote]: [db.delete('sessionNotes', id)]. *)
Definition deleteSessionNote (id : string) (s : Store) : Store :=
  withSessionNotes s (delete id (sessionNotes s)).

(** A history of the queue: what callers did to it, oldest first. *)
Inductive OutboxOp :=
| OpAdd (now : Z) (item : NewOutboxItem.t)
| OpRemove (id : Z).

(** The store after a history, and the keys its [addToOutbox] calls returned. *)
Fixpoint runOutboxOps (ops : list OutboxOp) (s : Store) : Store * list Z :=
  match ops with
  | [] => (s, [])
  | OpAdd now item :: ops' =>
      let '(s1, key) := addToOutbox now item s in
      let '(s2, keys) := runOutboxOps ops' s1 in
      (s2, key :: keys)
  | OpRemove id :: ops' => runOutboxOps ops' (removeFromOutbox id s)
  end.

(* ===================================================================== *)
(** ** The mock backend: ApiInterceptor *)
(* ===================================================================== *)

Definition API_BASE_PATH : string := "/api/session-notes".

(** [isValidId], for an argument that is a string. *)
Definition isValidId (id : string) : bool := negb (String.eqb id "").

(** [s.split(sep)] for a one-character separator: never empty. *)
Fixpoint split (sep : Ascii.ascii) (s : string) : list string :=
  match s with
  | EmptyString => [EmptyString]
  | String c s' =>
      if Ascii.eqb c sep then EmptyString :: split sep s'
      else match split sep s' with
           | seg :: segs => String c seg :: segs
           | [] => [String c EmptyString]
           end
  end.

(** [extractIdFromUrl]: [url.split('/').pop()], or [null] when that is
    empty. *)
Definition extractIdFromUrl (url : string) : option string :=
  match last (split "/"%char url) with
  | Some id => if negb (String.eqb id "") && isValidId id then Some id else None
  | None => None
  end.

Definition isApiRequest (url : string) : bool := String.prefix "/api/" url.

Definition isGetSessionNotes (req : HttpRequest) : bool :=
  String.eqb (req_method req) HTTP_METHODS.GET && String.eqb (req_url req) API_BASE_PATH.

Definition isPostSessionNotes (req : HttpRequest) : bool :=
  String.eqb (req_method req) HTTP_METHODS.POST && String.eqb (req_url req) API_BASE_PATH.

Definition isPutSessionNote (req : HttpRequest) : bool :=
  String.eqb (req_method req) HTTP_METHODS.PUT
  && String.prefix (API_BASE_PATH +:+ "/") (req_url req).

Definition isDeleteSessionNote (req : HttpRequest) : bool :=
  String.eqb (req_method req) HTTP_METHODS.DELETE
  && String.prefix (API_BASE_PATH +:+ "/") (req_url req).

(** The dispatch of [ApiInterceptor.intercept]: which branch answers. *)
Inductive ApiRoute :=
| PassedOn
| GetNotes
| PostNote
| PutNote
| DeleteNote
| RouteNotFound.

Definition apiRoute (req : HttpRequest) : ApiRoute :=
  if negb (isApiRequest (req_url req)) then PassedOn
  else if isGetSessionNotes req then GetNotes
  else if isPostSessionNotes req then PostNote
  else if isPutSessionNote req then PutNote
  else if isDeleteSessionNote req then DeleteNote
  else RouteNotFound.

(** The three shapes of body the handlers below build: the list of notes,
    [{ error: message }] and [{ success: true }]. *)
Inductive ApiBody :=
| NotesBody (notes : list SessionNote.t)
| ErrorBody (message : string)
| SuccessBody.

Record ApiResponse := mkApiResponse {
  api_status : Z;
  api_body : ApiBody }.

Definition createNotFoundResponse : ApiResponse :=
  mkApiResponse HTTP_STATUS.NOT_FOUND (ErrorBody "Not found").

Definition createBadRequestResponse (message : string) : ApiResponse :=
  mkApiResponse HTTP_STATUS.BAD_REQUEST (ErrorBody message).

Definition handleGetSessionNotes (s : Store) : ApiResponse :=
  mkApiResponse HTTP_STATUS.OK (NotesBody (getSessionNotes s)).

Definition handleDeleteSessionNote (req : HttpRequest) (s : Store) : Store * ApiResponse :=
  match extractIdFromUrl (req_url req) with
  | None => (s, createBadRequestResponse "Invalid ID")
  | Some id => (deleteSessionNote id s, mkApiResponse HTTP_STATUS.OK SuccessBody)
  end.

(** Every counter of a status is in range. *)
Definition statusInRange (st : SyncStatus) : Prop :=
  0 ≤ failedItems st ≤ completedItems st ∧ completedItems st ≤ totalItems st.

(** The character occurs in the string. *)
Fixpoint contains (c : Ascii.ascii) (s : string) : bool :=
  match s with
  | EmptyString => false
  | String a s' => Ascii.eqb a c || contains c s'
  end.

(** What the orchestrator leaves as it is, what it only takes from, and
    what it only adds to. *)
Definition orchestratorFrame (w w' : World) : Prop :=
  isOnline w' = isOnline w
  ∧ cache (store w') = cache (store w)
  ∧ sessionNotes (store w') = sessionNotes (store w)
  ∧ outboxKey (store w') = outboxKey (store w)
  ∧ outbox (store w') `sublist_of` outbox (store w)
  ∧ syncConflicts (store w) `prefix_of` syncConflicts (store w')
  ∧ published w `prefix_of` published w'
  ∧ network w `prefix_of` network w'.

(** Pending work that is no part of a running drain: new calls of
    [sync()] and removals of replayed items. *)
Definition isBystander (t : Task) : bool :=
  match t with
  | CallSync | AwaitRemoveReplayed _ => true
  | _ => false
  end.

(* ===================================================================== *)
(** * Properties of the request router *)
(* ===================================================================== *)

Section Router.

Implicit Types (req : HttpRequest) (next : HttpHandler) (s : Store) (now : Z).

Lemma isMutationMethod_cases (m : string) :
  isMutationMethod m = true → m = "POST" ∨ m = "PUT" ∨ m = "DELETE".
Proof.
  unfold isMutationMethod. intros H.
  apply orb_prop in H as [H | H]; [apply orb_prop in H as [H | H] |];
    apply String.eqb_eq in H; auto.
Qed.

Lemma mutation_is_not_get (m : string) :
  isMutationMethod m = true → isGetMethod m = false.
Proof.
  intros H. destruct (isMutationMethod_cases m H) as [-> | [-> | ->]]; reflexivity.
Qed.

Lemma js_or_truthy (a b : JsValue) : truthy a = true → js_or a b = a.
Proof. unfold js_or. intros ->. reflexivity. Qed.

Lemma num_or_same (n : Z) : num_or n n = n.
Proof. unfold num_or. destruct (n =? 0); reflexivity. Qed.

Lemma intercept_offline_mutation now req next s :
  isMutationMethod (req_method req) = true →
  intercept false now req next s = handleOfflineMutation now req s.
Proof. unfold intercept. intros ->. reflexivity. Qed.

Lemma intercept_offline_get now req next s :
  isGetMethod (req_method req) = true →
  intercept false now req next s = handleOfflineGet req s.
Proof.
  unfold intercept. intros Hg. rewrite Hg.
  destruct (isMutationMethod (req_method req)) eqn:Hm; [| reflexivity].
  apply mutation_is_not_get in Hm. congruence.
Qed.

(** An offline read whose cache entry holds a truthy body is served from
    the cache. *)
Lemma offline_get_hit now req next s item :
  isGetMethod (req_method req) = true →
  cache s !! req_url req = Some item →
  truthy (CacheItem.data item) = true →
  intercept false now req next s
  = mkRouted s (fromResolved (mkResponse 200 "OK (Cached)" (CacheItem.data item))) [].
Proof.
  intros Hg Hc Ht. rewrite intercept_offline_get by done.
  unfold handleOfflineGet, getCached. rewrite Hc, Ht. reflexivity.
Qed.

(** An offline read without a cache entry gets the 503 response; nothing is
    stored and nothing is sent. *)
Lemma offline_get_miss now req next s :
  isGetMethod (req_method req) = true →
  cache s !! req_url req = None →
  intercept false now req next s
  = mkRouted s (fromResolved createServiceUnavailableResponse) [].
Proof.
  intros Hg Hc. rewrite intercept_offline_get by done.
  unfold handleOfflineGet, getCached. rewrite Hc. reflexivity.
Qed.

(** An offline read never changes the store and never reaches the network. *)
Lemma offline_get_no_side_effects now req next s :
  isGetMethod (req_method req) = true →
  store_after (intercept false now req next s) = s
  ∧ forwarded (intercept false now req next s) = [].
Proof.
  intros Hg. rewrite intercept_offline_get by done. unfold handleOfflineGet.
  destruct (truthy _); split; reflexivity.
Qed.

(** C5, as stated, fails: an offline DELETE carries no body ([null]), and
    the queued payload is the empty object instead. *)
Lemma offline_delete_queues_empty_object :
  let req := mkRequest "DELETE" "/api/session-notes/1" JsNull in
  map OutboxItem.payload (outbox (store_after (intercept false 1000 req noNetwork emptyStore)))
  = [emptyObject]
  ∧ emptyObject ≠ req_body req.
Proof. split; [reflexivity | discriminate]. Qed.

(** C5 (amended): an offline POST, PUT or DELETE appends exactly one record
    to the queue, with the request's url and method, the time of the
    request, and as payload the request body when it is truthy and the empty
    object when there is none; the other collections are untouched, nothing
    is forwarded to the network, and the caller receives a status-200
    response with [success: true] and the message of the method. *)
Theorem offline_mutation_is_queued now req next s :
  isMutationMethod (req_method req) = true →
  let r := intercept false now req next s in
  let item :=
    OutboxItem.mk (outboxKey s) (req_url req) (req_method req)
      (js_or (req_body req) emptyObject) now in
  outbox (store_after r) = outbox s ++ [item]
  ∧ (truthy (req_body req) = true → OutboxItem.payload item = req_body req)
  ∧ (req_body req = JsNull ∨ req_body req = JsUndefined → OutboxItem.payload item = emptyObject)
  ∧ syncConflicts (store_after r) = syncConflicts s
  ∧ cache (store_after r) = cache s
  ∧ sessionNotes (store_after r) = sessionNotes s
  ∧ forwarded r = []
  ∧ ∃ responseBody,
      returned r = fromResolved (mkResponse 200 "OK" responseBody)
      ∧ (req_method req = "POST" →
           responseBody = JsObj [("success", JsBool true);
                                 ("message", JsStr "Saved offline, will sync when online");
                                 ("data", req_body req)])
      ∧ (req_method req = "PUT" →
           responseBody = JsObj [("success", JsBool true);
                                 ("message", JsStr "Updated offline, will sync when online");
                                 ("data", req_body req)])
      ∧ (req_method req = "DELETE" →
           responseBody = JsObj [("success", JsBool true);
                                 ("message", JsStr "Delete queued offline, will sync when online")]).
Proof.
  intros Hm r item. subst r item.
  rewrite intercept_offline_mutation by done.
  unfold handleOfflineMutation, addToOutbox. cbn.
  rewrite num_or_same.
  repeat split.
  - apply js_or_truthy.
  - intros [-> | ->]; reflexivity.
  - eexists. split; [reflexivity |].
    repeat split; intros ->; reflexivity.
Qed.

(** The scenario of the specification: an offline PUT of a note. *)
Lemma offline_mutation_is_queued_witness :
  outbox (store_after
            (intercept false 1000
               (mkRequest "PUT" "/api/session-notes/1" (JsObj [("note", JsStr "x")]))
               noNetwork emptyStore))
  = [putNote].
Proof.
  exact (proj1 (offline_mutation_is_queued 1000
                  (mkRequest "PUT" "/api/session-notes/1" (JsObj [("note", JsStr "x")]))
                  noNetwork emptyStore eq_refl)).
Defined.

(** C6 fails on the code: a successful online read whose body is [null] is
    cached under its URL, and the offline read of the same URL is answered
    with the 503 response although the cache entry exists. *)
Theorem offline_get_of_cached_null_is_unavailable :
  let req := mkRequest "GET" "/api/session-notes" JsNull in
  let s := store_after (intercept true 1000 req (replies 200 JsNull) emptyStore) in
  cache s !! req_url req = Some (CacheItem.mk "/api/session-notes" JsNull 1000)
  ∧ returned (intercept false 2000 req noNetwork s)
    = fromResolved createServiceUnavailableResponse
  ∧ status createServiceUnavailableResponse = 503.
Proof. cbv zeta. split; [| split]; vm_compute; reflexivity. Qed.

(** The cache after the [next] callbacks of an online read. *)
Lemma cacheOnEvent_other now url s events k :
  k ≠ url →
  cache (fold_left (cacheOnEvent now url) events s) !! k = cache s !! k.
Proof.
  intros Hk. revert s. induction events as [| ev events IH]; intros s; [done |].
  cbn [fold_left]. rewrite IH. destruct ev as [| | r]; cbn; try done.
  destruct (status r =? HTTP_STATUS.OK); [| done].
  cbn. by rewrite lookup_insert_ne.
Qed.

Lemma cacheOnEvent_unchanged now url s events :
  (∀ r, EvResponse r ∈ events → status r ≠ 200) →
  fold_left (cacheOnEvent now url) events s = s.
Proof.
  revert s. induction events as [| ev events IH]; intros s Hno; [done |].
  cbn [fold_left].
  assert (cacheOnEvent now url s ev = s) as ->.
  { destruct ev as [| | r]; cbn; try done.
    destruct (Z.eqb_spec (status r) HTTP_STATUS.OK) as [He | _]; [| done].
    exfalso. apply (Hno r); [left | exact He]. }
  apply IH. intros r Hr. apply Hno. by right.
Qed.

Lemma response_200_or_none (events : list HttpEvent) :
  (∃ resp, EvResponse resp ∈ events ∧ status resp = 200)
  ∨ (∀ r, EvResponse r ∈ events → status r ≠ 200).
Proof.
  induction events as [| ev events [(resp & Hin & Hst) | Hno]].
  - right. intros r Hr. by apply elem_of_nil in Hr.
  - left. exists resp. split; [by right | done].
  - destruct ev as [| | r0].
    + right. intros r Hr. apply elem_of_cons in Hr as [Hr | Hr]; [done | by apply Hno].
    + right. intros r Hr. apply elem_of_cons in Hr as [Hr | Hr]; [done | by apply Hno].
    + destruct (decide (status r0 = 200)) as [He | Hne].
      * left. exists r0. split; [by left | done].
      * right. intros r Hr. apply elem_of_cons in Hr as [Hr | Hr]; [| by apply Hno].
        by inversion Hr; subst.
Qed.

(** C7, as stated, fails: a successful online read answered with status 203
    is a 2xx success, and no cache entry is written. *)
Lemma online_get_203_is_not_cached :
  let req := mkRequest "GET" "/api/session-notes" JsNull in
  let r := intercept true 1000 req (replies 203 (JsArr [])) emptyStore in
  returned r = replies 203 (JsArr []) req
  ∧ cache (store_after r) = ∅.
Proof. split; reflexivity. Qed.

(** C7 (amended): the router writes the cache only for an online GET and
    only on a response event whose status is exactly 200, under the
    request URL with the body of that response; every other request, online
    mutations among them, leaves every cache entry as it was.  Online, what
    the handler chain returns reaches the caller unchanged. *)
Theorem cache_written_only_by_online_get_200 (isOnline : bool) now req next s :
  let r := intercept isOnline now req next s in
  (isOnline = true → returned r = next req ∧ forwarded r = [req])
  ∧ (cache (store_after r) ≠ cache s →
       isOnline = true ∧ req_method req = "GET"
       ∧ ∃ resp, EvResponse resp ∈ emitted (next req) ∧ status resp = 200)
  ∧ (isOnline = true → req_method req = "GET" →
       ∀ events resp, emitted (next req) = events ++ [EvResponse resp] → status resp = 200 →
         cache (store_after r) !! req_url req
         = Some (CacheItem.mk (req_url req) (body resp) now))
  ∧ (∀ k, k ≠ req_url req → cache (store_after r) !! k = cache s !! k)
  ∧ (isMutationMethod (req_method req) = true → cache (store_after r) = cache s).
Proof.
  intros r. subst r. unfold intercept.
  destruct isOnline; cbn [negb andb].
  - destruct (isGetMethod (req_method req)) eqn:Hg.
    + apply String.eqb_eq in Hg as Hget. unfold handleOnlineGet. cbn.
      split; [| split; [| split; [| split]]].
      * intros _. split; [| done]. by destruct (next req).
      * intros Hne. split; [done |]. split; [done |].
        destruct (response_200_or_none (emitted (next req))) as [Hex | Hno]; [done |].
        exfalso. apply Hne. by rewrite cacheOnEvent_unchanged.
      * intros _ _ events resp Hev Hst. rewrite Hev, fold_left_app. cbn.
        apply Z.eqb_eq in Hst. unfold HTTP_STATUS.OK. rewrite Hst. cbn.
        by rewrite lookup_insert_eq.
      * intros k Hk. by apply cacheOnEvent_other.
      * intros Hm. apply mutation_is_not_get in Hm. congruence.
    + cbn. split; [done |]. split; [done |]. split; [| done].
      intros _ Hget. rewrite Hget in Hg. discriminate.
  - destruct (isMutationMethod (req_method req)) eqn:Hm.
    + unfold handleOfflineMutation, addToOutbox. cbn.
      split; [done |]. split; [done |]. split; [done |]. done.
    + destruct (isGetMethod (req_method req)) eqn:Hg.
      * unfold handleOfflineGet. destruct (truthy _); cbn; done.
      * cbn. done.
Qed.

(** An online GET answered with status 200 and an empty list. *)
Lemma cache_written_only_by_online_get_200_witness :
  cache (store_after
           (intercept true 1000 (mkRequest "GET" "/api/session-notes" JsNull)
              (replies 200 (JsArr [])) emptyStore))
    !! "/api/session-notes"
  = Some (CacheItem.mk "/api/session-notes" (JsArr []) 1000).
Proof.
  exact (proj1 (proj2 (proj2
           (cache_written_only_by_online_get_200 true 1000
              (mkRequest "GET" "/api/session-notes" JsNull) (replies 200 (JsArr [])) emptyStore)))
         eq_refl eq_refl [] (mkResponse 200 "" (JsArr [])) eq_refl eq_refl).
Defined.





End Router.

(* ===================================================================== *)
(** * The event loop: invariants and termination *)
(* ===================================================================== *)

Section EventLoopFacts.

Context {W T : Type} (step : Z → T → W → W * list T).

(** A property established at the start and kept by every completion holds
    in every configuration a schedule can reach. *)
Lemma exec_invariant (I : Config W T → Prop) :
  (∀ c i now t, I c → pool c !! i = Some t →
     I (mkConfig (step now t (world c)).1 (delete i (pool c) ++ (step now t (world c)).2))) →
  ∀ sched c, I c → I (exec step sched c).
Proof.
  intros Hkeep sched. induction sched as [| ch sched IH]; intros c Hc; [done |].
  cbn. apply IH. unfold fire.
  destruct (pool c !! chosen ch) as [t |] eqn:Ht; [| done].
  specialize (Hkeep c (chosen ch) (clock ch) t Hc Ht).
  by destruct (step (clock ch) t (world c)).
Qed.

Lemma exec_app (s1 s2 : list Choice) (c : Config W T) :
  exec step (s1 ++ s2) c = exec step s2 (exec step s1 c).
Proof. unfold exec. apply fold_left_app. Qed.

(** Termination by a weight on pending operations: a completion replaces
    an operation by lighter ones and makes no other operation heavier. *)
Variable weight : W → T → nat.

Hypothesis step_lighter : ∀ now t w,
  (sum_list_with (weight (step now t w).1) (step now t w).2 < weight w t)%nat.
Hypothesis step_no_heavier : ∀ now t w t',
  (weight (step now t w).1 t' ≤ weight w t')%nat.

Lemma sum_list_with_le (f g : T → nat) (l : list T) :
  (∀ x, (f x ≤ g x)%nat) → (sum_list_with f l ≤ sum_list_with g l)%nat.
Proof.
  intros Hfg. induction l as [| x l IH]; cbn; [lia |]. specialize (Hfg x). lia.
Qed.

Lemma oldest_first_drains (n : nat) (c : Config W T) :
  (load weight c ≤ n)%nat → pool (exec step (oldestFirst n) c) = [].
Proof.
  revert c. induction n as [| n IH]; intros c Hc.
  - cbn. destruct c as [w [| t ts]]; [done |]. unfold load in Hc. cbn in Hc.
    pose proof (step_lighter 0 t w). lia.
  - cbn. apply IH. unfold fire. cbn.
    destruct c as [w [| t ts]]; cbn; [unfold load in *; cbn in *; lia |].
    destruct (step 0 t w) as [w' new] eqn:Hs.
    unfold load in *. cbn in *. rewrite sum_list_with_app.
    pose proof (step_lighter 0 t w) as Hl. pose proof (step_no_heavier 0 t w) as Hh.
    rewrite Hs in Hl, Hh. cbn in Hl, Hh.
    pose proof (sum_list_with_le (weight w') (weight w) ts Hh). lia.
Qed.

End EventLoopFacts.

(* ===================================================================== *)
(** * Facts about lists and the index order *)
(* ===================================================================== *)

Section ListFacts.

Lemma prefixes_snoc {A : Type} (l : list A) (x : A) :
  prefixes (l ++ [x]) = prefixes l ++ [l ++ [x]].
Proof.
  induction l as [| y l IH]; [reflexivity |].
  cbn [prefixes app]. rewrite IH, map_app. reflexivity.
Qed.

Lemma index_insert_length x l : length (index_insert x l) = S (length l).
Proof.
  induction l as [| y l IH]; [reflexivity |].
  cbn. destruct (index_leb x y); cbn; [reflexivity | by rewrite IH].
Qed.

Lemma index_sort_length l : length (index_sort l) = length l.
Proof.
  induction l as [| x l IH]; [reflexivity |].
  cbn. by rewrite index_insert_length, IH.
Qed.

Lemma index_insert_perm x l : index_insert x l ≡ₚ x :: l.
Proof.
  induction l as [| y l IH]; [reflexivity |].
  cbn. destruct (index_leb x y); [reflexivity |].
  rewrite IH. apply Permutation_swap.
Qed.

Lemma index_sort_perm l : index_sort l ≡ₚ l.
Proof.
  induction l as [| x l IH]; [reflexivity |].
  cbn. by rewrite index_insert_perm, IH.
Qed.

(** On a queue whose keys ascend and whose timestamps do not decrease, the
    index returns the records in queue order. *)
Lemma index_sort_in_order l :
  StronglySorted (λ a b, OutboxItem.id a < OutboxItem.id b) l →
  enqueuedInTimeOrder l →
  index_sort l = l.
Proof.
  unfold enqueuedInTimeOrder.
  induction l as [| x l IH]; intros Hk Ht; [reflexivity |].
  inversion Hk as [| ? ? Hk' Hkx]; subst. inversion Ht as [| ? ? Ht' Htx]; subst.
  cbn. rewrite IH by done.
  destruct l as [| y l]; [reflexivity |].
  cbn. unfold index_leb.
  apply Forall_cons in Hkx as [Hxy _]. apply Forall_cons in Htx as [Txy _].
  destruct (Z.ltb_spec (OutboxItem.timestamp x) (OutboxItem.timestamp y)); [reflexivity |].
  assert (OutboxItem.timestamp x = OutboxItem.timestamp y) as -> by lia.
  rewrite Z.eqb_refl. cbn.
  destruct (Z.leb_spec (OutboxItem.id x) (OutboxItem.id y)); [reflexivity | lia].
Qed.

Lemma index_leb_order a b : index_leb a b = true ↔ indexOrder a b.
Proof.
  unfold index_leb, indexOrder.
  rewrite orb_true_iff, andb_true_iff, Z.ltb_lt, Z.eqb_eq, Z.leb_le. done.
Qed.

Lemma index_leb_total a b : index_leb a b = false → indexOrder b a.
Proof.
  intros H. destruct (decide (indexOrder a b)) as [Hab | Hab].
  - apply index_leb_order in Hab. congruence.
  - unfold indexOrder in *. lia.
Qed.

Lemma index_insert_sorted x l :
  StronglySorted indexOrder l → StronglySorted indexOrder (index_insert x l).
Proof.
  induction 1 as [| y l Hs IH Hy]; cbn.
  - repeat constructor.
  - destruct (index_leb x y) eqn:Hxy.
    + apply index_leb_order in Hxy. constructor; [by constructor |].
      constructor; [done |]. eapply Forall_impl; [exact Hy |].
      intros z Hz. unfold indexOrder in *. lia.
    + apply index_leb_total in Hxy. constructor; [done |].
      rewrite index_insert_perm. by constructor.
Qed.

(** The snapshot is the queue in index order. *)
Lemma index_sort_sorted l : StronglySorted indexOrder (index_sort l).
Proof.
  induction l as [| x l IH]; cbn; [constructor | by apply index_insert_sorted].
Qed.

Lemma ascending_keys_NoDup (l : list OutboxItem.t) :
  StronglySorted (λ a b, OutboxItem.id a < OutboxItem.id b) l →
  NoDup (OutboxItem.id <$> l).
Proof.
  induction 1 as [| x l Hs IH Hx]; cbn; constructor; [| done].
  intros Hin. apply list_elem_of_fmap in Hin as (y & Hy & Hin).
  rewrite Forall_forall in Hx. specialize (Hx y Hin). lia.
Qed.

End ListFacts.

(* ===================================================================== *)
(** * The queue invariant *)
(* ===================================================================== *)

Section StoreFacts.

Lemma Forall_filter_keeps {A : Type} (P Q : A → Prop) `{∀ x, Decision (Q x)} (l : list A) :
  Forall P l → Forall P (filter Q l).
Proof.
  rewrite !Forall_forall. intros Hl x Hx. apply list_elem_of_filter in Hx as [_ Hx]. auto.
Qed.

Lemma emptyStore_wf : outbox_wf emptyStore.
Proof. split; [constructor |]. split; [constructor | done]. Qed.

Lemma addToOutbox_wf now item s : outbox_wf s → outbox_wf (addToOutbox now item s).1.
Proof.
  intros (Hs & Hk & H0). unfold addToOutbox, outbox_wf. cbn.
  split; [| split; [| lia]].
  - apply StronglySorted_app_2; [| done | repeat constructor].
    intros x1 x2 Hx1 ->%list_elem_of_singleton. cbn.
    rewrite Forall_forall in Hk. specialize (Hk x1 Hx1). lia.
  - apply Forall_app. split.
    + eapply Forall_impl; [exact Hk |]. cbn. intros x Hx. lia.
    + repeat constructor; cbn; lia.
Qed.

Lemma removeFromOutbox_wf id s : outbox_wf s → outbox_wf (removeFromOutbox id s).
Proof.
  intros (Hs & Hk & H0). unfold removeFromOutbox, outbox_wf. cbn.
  split; [| split; [| done]].
  - clear Hk. induction Hs as [| x l Hs IH Hx]; [constructor |].
    rewrite filter_cons. destruct (decide _); [| done].
    constructor; [done |]. by apply Forall_filter_keeps.
  - by apply Forall_filter_keeps.
Qed.

(** The router keeps the queue well formed, made of mutations, and in time
    order as long as the clock does not run backwards. *)
Lemma offline_mutation_keeps_queue now req next s :
  isMutationMethod (req_method req) = true →
  outbox_wf s → pendingMutations (outbox s) →
  let s' := store_after (intercept false now req next s) in
  outbox_wf s' ∧ pendingMutations (outbox s')
  ∧ (enqueuedInTimeOrder (outbox s) →
     Forall (λ it, OutboxItem.timestamp it ≤ now) (outbox s) →
     enqueuedInTimeOrder (outbox s')).
Proof.
  intros Hm Hwf Hp s'. subst s'. rewrite intercept_offline_mutation by done.
  unfold handleOfflineMutation.
  pose proof (addToOutbox_wf now
                (NewOutboxItem.mk (req_url req) (req_method req)
                   (js_or (req_body req) emptyObject) now) s Hwf) as Hwf'.
  unfold addToOutbox in *. cbn in *. rewrite num_or_same in *.
  split; [done |]. split.
  - apply Forall_app. split; [done |]. by repeat constructor.
  - intros Ht Hnow. apply StronglySorted_app_2; [| done | repeat constructor].
    intros x1 x2 Hx1 ->%list_elem_of_singleton. cbn.
    rewrite Forall_forall in Hnow. by apply Hnow.
Qed.

End StoreFacts.

(* ===================================================================== *)
(** * Properties of the sync orchestrator *)
(* ===================================================================== *)

Section SyncFacts.

Variable remote : Remote.

Lemma processItem_store item rest w :
  store (processItem item rest w).1 = store w.
Proof.
  unfold processItem. destruct (hasValidItemId item); [| done].
  by destruct (createHttpRequest item).
Qed.

Lemma subscribeNext_store rest w : store (subscribeNext rest w).1 = store w.
Proof. destruct rest; [done |]. apply processItem_store. Qed.

Lemma processItem_weight item rest w :
  (sum_list_with (taskWeight (processItem item rest w).1) (processItem item rest w).2
   ≤ 4 * length rest + 5)%nat.
Proof.
  unfold processItem. destruct (hasValidItemId item); cbn; [| lia].
  destruct (createHttpRequest item); cbn; lia.
Qed.

Lemma subscribeNext_weight rest w :
  (sum_list_with (taskWeight (subscribeNext rest w).1) (subscribeNext rest w).2
   ≤ 4 * length rest + 1)%nat.
Proof.
  destruct rest as [| item rest]; cbn [subscribeNext]; [cbn; lia |].
  pose proof (processItem_weight item rest w). cbn [length]. lia.
Qed.

Lemma step_store_outbox now t w :
  (length (outbox (store (step remote now t w).1)) ≤ length (outbox (store w)))%nat.
Proof.
  destruct t; cbn [step].
  - by destruct (shouldSkipSync w).
  - destruct (_ =? _)%nat; [done |].
    unfold processOutboxItems. by rewrite subscribeNext_store.
  - destruct (remote item) as [b | e].
    + destruct (subscribeNext _ _) as [w2 next] eqn:Hn. cbn.
      replace w2 with (subscribeNext rest (incrementCompletedItems (logNet w (Settled item (Replied b))))).1
        by (by rewrite Hn).
      by rewrite subscribeNext_store.
    + by destruct (isClientError _).
  - cbn. apply length_filter.
  - destruct (hasValidItemId item); [done |].
    unfold finishClientError. by rewrite subscribeNext_store.
  - unfold finishClientError. rewrite subscribeNext_store. cbn. apply length_filter.
  - done.
Qed.

Lemma step_no_heavier now t w t' :
  (taskWeight (step remote now t w).1 t' ≤ taskWeight w t')%nat.
Proof.
  pose proof (step_store_outbox now t w).
  destruct t'; cbn [taskWeight]; lia.
Qed.

Lemma step_lighter now t w :
  (sum_list_with (taskWeight (step remote now t w).1) (step remote now t w).2
   < taskWeight w t)%nat.
Proof.
  destruct t; cbn [step taskWeight].
  - destruct (shouldSkipSync w); cbn; lia.
  - destruct (Nat.eqb_spec (length (getOutbox (store w))) 0) as [He | Hne]; [cbn; lia |].
    unfold processOutboxItems.
    pose proof (subscribeNext_weight (getOutbox (store w))
                  (startSync (Z.of_nat (length (getOutbox (store w)))) w)) as Hw.
    unfold getOutbox in *. rewrite index_sort_length in *.
    destruct (index_sort (outbox (store w))) as [| x l] eqn:Hs.
    + apply (f_equal length) in Hs. rewrite index_sort_length in Hs. cbn in *. lia.
    + cbn [subscribeNext] in *.
      pose proof (processItem_weight x l (startSync (Z.of_nat (length (outbox (store w)))) w)).
      apply (f_equal length) in Hs. rewrite index_sort_length in Hs. cbn in Hs. lia.
  - destruct (remote item) as [b | e].
    + pose proof (subscribeNext_weight rest
                    (incrementCompletedItems (logNet w (Settled item (Replied b))))) as Hw.
      destruct (subscribeNext _ _) as [w2 next]. cbn in *.
      rewrite sum_list_with_app. unfold handleSuccessfulRequest.
      destruct (nullish b), (hasValidItemId item); cbn; lia.
    + destruct (isClientError _); cbn; lia.
  - cbn. lia.
  - destruct (hasValidItemId item); [cbn; lia |].
    unfold finishClientError.
    match goal with |- context [subscribeNext rest ?w'] =>
      pose proof (subscribeNext_weight rest w') end. lia.
  - unfold finishClientError.
    match goal with |- context [subscribeNext rest ?w'] =>
      pose proof (subscribeNext_weight rest w') end. lia.
  - cbn. lia.
Qed.

(** Every drain comes to rest, whatever the remote side answers. *)
Lemma drain_terminates (c : Config World Task) :
  pool (exec (step remote) (oldestFirst (load taskWeight c)) c) = [].
Proof.
  apply (oldest_first_drains (step remote) taskWeight); [| | done].
  - apply step_lighter.
  - apply step_no_heavier.
Qed.

End SyncFacts.

Section DrainFacts.

Variables (remote : Remote) (w0 : World).

#[local] Abbreviation snap := (snapshot w0).
#[local] Abbreviation Phase := (Phase remote w0).
#[local] Abbreviation DrainInv := (DrainInv remote w0).

Lemma pool_pick (mains : list Task) pend (tasks : list Task) i t :
  tasks ≡ₚ mains ++ (AwaitRemoveReplayed <$> pend) →
  tasks !! i = Some t →
  (length mains ≤ 1)%nat →
  (mains = [t] ∧ delete i tasks ≡ₚ AwaitRemoveReplayed <$> pend)
  ∨ (∃ it pend', t = AwaitRemoveReplayed it ∧ pend ≡ₚ it :: pend'
       ∧ delete i tasks ≡ₚ mains ++ (AwaitRemoveReplayed <$> pend')).
Proof.
  intros Hp Hi Hlen.
  assert (t :: delete i tasks ≡ₚ mains ++ (AwaitRemoveReplayed <$> pend)) as Hd.
  { by rewrite <- (delete_Permutation _ _ _ Hi). }
  assert (t ∈ mains ++ (AwaitRemoveReplayed <$> pend)) as Hin.
  { rewrite <- Hp. by eapply list_elem_of_lookup_2. }
  apply elem_of_app in Hin as [Hin | Hin].
  - left. destruct mains as [| m [| m' mains]]; cbn in Hlen; [| | lia].
    + by apply elem_of_nil in Hin.
    + apply list_elem_of_singleton in Hin as ->. split; [done |].
      cbn in Hd. by apply Permutation_cons_inv in Hd.
  - right. apply list_elem_of_fmap in Hin as (it & -> & Hit).
    apply elem_of_Permutation in Hit as (pend' & Hpend).
    exists it, pend'. split; [done |]. split; [done |].
    rewrite Hpend in Hd. cbn in Hd.
    rewrite <- Permutation_middle in Hd. by apply Permutation_cons_inv in Hd.
Qed.

Lemma phase_mains w mains done : Phase w mains done → (length mains ≤ 1)%nat.
Proof. destruct 1; cbn; lia. Qed.

(** The phase does not look at the queue. *)
Lemma Shows_same w w' pubs st added net :
  published w' = published w → currentStatus w' = currentStatus w →
  syncConflicts (store w') = syncConflicts (store w) → network w' = network w →
  Shows w0 w pubs st added net → Shows w0 w' pubs st added net.
Proof. unfold Shows. intros -> -> -> ->. done. Qed.

Lemma phase_same w w' mains done :
  isOnline w' = isOnline w →
  published w' = published w → currentStatus w' = currentStatus w →
  syncConflicts (store w') = syncConflicts (store w) → network w' = network w →
  Phase w mains done → Phase w' mains done.
Proof.
  intros Ho Hp Hc Hs Hn Hph.
  destruct Hph; econstructor; eauto using Shows_same; congruence.
Qed.


Lemma processItem_replayable item rest w :
  replayable item →
  processItem item rest w = (logNet w (Issued (callOf item)), [AwaitResponse item rest]).
Proof.
  intros [Hid Hm]. unfold processItem, hasValidItemId, createHttpRequest, callOf.
  destruct (Z.eqb_spec (OutboxItem.id item) 0); [done |]. cbn.
  destruct item as [id url method payload timestamp]. cbn in *.
  destruct (isMutationMethod_cases _ Hm) as [-> | [-> | ->]]; reflexivity.
Qed.

Lemma hasValidItemId_replayable item : replayable item → hasValidItemId item = true.
Proof.
  intros [Hid _]. unfold hasValidItemId. by destruct (Z.eqb_spec (OutboxItem.id item) 0).
Qed.

Lemma conflictsFor_app l1 l2 :
  conflictsFor remote (l1 ++ l2) = conflictsFor remote l1 ++ conflictsFor remote l2.
Proof.
  induction l1 as [| x l1 IH]; [done |]. cbn.
  destruct (remote x) as [| e]; [done |]. destruct (isClientError _); cbn; by rewrite IH.
Qed.

Lemma dequeuedKeys_snoc done item :
  dequeuedKeys remote (done ++ [item])
  = dequeuedKeys remote done ++ (if dequeued remote item then [OutboxItem.id item] else []).
Proof.
  unfold dequeuedKeys. rewrite filter_app, fmap_app. f_equal.
  rewrite filter_cons. destruct (decide _) as [-> | Hno]; [done |].
  by destruct (dequeued remote item).
Qed.

Lemma dequeuedKeys_subset l k : k ∈ dequeuedKeys remote l → k ∈ OutboxItem.id <$> l.
Proof.
  unfold dequeuedKeys. intros (it & -> & Hit)%list_elem_of_fmap.
  apply list_elem_of_filter in Hit as [_ Hit]. by apply list_elem_of_fmap_2.
Qed.

Lemma replay_snoc done item :
  replay remote (done ++ [item])
  = replay remote done ++ [Issued (callOf item); Settled item (remote item)].
Proof. unfold replay. rewrite flat_map_app. cbn. done. Qed.

Lemma statuses_snoc done item :
  statuses remote w0 (done ++ [item])
  = statuses remote w0 done ++ [statusAfter remote (total w0) (done ++ [item])].
Proof. unfold statuses. by rewrite prefixes_snoc, fmap_app. Qed.

Lemma statusAfter_replied done item b :
  remote item = Replied b →
  statusAfter remote (total w0) (done ++ [item])
  = mkStatus true (total w0) (Z.of_nat (length done) + 1)
      (Z.of_nat (length (conflictsFor remote done))).
Proof.
  intros Hr. unfold statusAfter. rewrite conflictsFor_app, !length_app. cbn. rewrite Hr. cbn.
  f_equal; lia.
Qed.

Lemma statusAfter_rejected done item e :
  remote item = Failed e → isClientError (err_status e) = true →
  statusAfter remote (total w0) (done ++ [item])
  = mkStatus true (total w0) (Z.of_nat (length done) + 1)
      (Z.of_nat (length (conflictsFor remote done)) + 1).
Proof.
  intros Hr He. unfold statusAfter. rewrite conflictsFor_app, !length_app. cbn.
  rewrite Hr, He. cbn. f_equal; lia.
Qed.

Lemma Shows_updateStatus w pubs st added net st' :
  Shows w0 w pubs st added net → Shows w0 (updateStatus st' w) (pubs ++ [st']) st' added net.
Proof. unfold Shows. cbn. intros (-> & _ & -> & ->). by rewrite (assoc_L (++)). Qed.

Lemma Shows_logNet w pubs st added net e :
  Shows w0 w pubs st added net → Shows w0 (logNet w e) pubs st added (net ++ [e]).
Proof. unfold Shows. cbn. intros (-> & -> & -> & ->). by rewrite (assoc_L (++)). Qed.

(** [concatMap] moving on after [item]: the drain waits for the next
    response, or for the queue read of [handleSyncComplete]. *)
Lemma phase_next done item rest added w :
  Forall replayable snap →
  snap = done ++ item :: rest →
  Forall (λ it, continuing remote it = true) (done ++ [item]) →
  Shows w0 w (statuses remote w0 (done ++ [item]))
    (statusAfter remote (total w0) (done ++ [item])) added (replay remote (done ++ [item])) →
  Forall2 recordsConflict (conflictsFor remote (done ++ [item])) added →
  ∃ m, (subscribeNext rest w).2 = [m] ∧ Phase (subscribeNext rest w).1 [m] (done ++ [item]).
Proof.
  intros Hrep Hsnap Hcont Hshows Hadded.
  destruct rest as [| next rest]; cbn [subscribeNext].
  - exists AwaitRemaining. split; [done |]. cbn.
    assert (done ++ [item] = snap) as Heq by done.
    rewrite Heq in *. by eapply PhRemaining.
  - assert (replayable next) as Hnext.
    { rewrite Forall_forall in Hrep. apply Hrep. rewrite Hsnap.
      apply elem_of_app. right. right. by left. }
    rewrite (processItem_replayable _ _ _ Hnext). eexists. split; [done |]. cbn.
    eapply PhResponse; eauto.
    + by rewrite <- (assoc_L (++)).
    + by apply Shows_logNet.
Qed.


Lemma filter_not_removed (removed : list Z) (k : Z) (l : list OutboxItem.t) :
  filter (λ it, OutboxItem.id it ≠ k) (filter (λ it, OutboxItem.id it ∉ removed) l)
  = filter (λ it, OutboxItem.id it ∉ k :: removed) l.
Proof.
  rewrite list_filter_filter. apply list_filter_iff. intros x.
  rewrite not_elem_of_cons. done.
Qed.

Lemma filter_none_removed (l : list OutboxItem.t) :
  filter (λ it, OutboxItem.id it ∉ []) l = l.
Proof.
  induction l as [| x l IH]; [done |].
  rewrite filter_cons_True by apply not_elem_of_nil. by rewrite IH.
Qed.

Lemma recordsConflict_stored now item error key :
  recordsConflict (item, error)
    (SyncConflict.mk key (OutboxItem.url item) (OutboxItem.method item) (OutboxItem.payload item)
       (num_or (OutboxItem.timestamp item) now) (conflictError error)).
Proof.
  unfold recordsConflict. cbn. repeat split; try done.
  intros Hts. unfold num_or. by destruct (Z.eqb_spec (OutboxItem.timestamp item) 0).
Qed.

(** Every completion keeps the invariant. *)
Lemma drain_inv_step c i now t :
  Forall replayable snap →
  isSyncing (currentStatus w0) = false →
  DrainInv c → pool c !! i = Some t →
  DrainInv (mkConfig (step remote now t (world c)).1
              (delete i (pool c) ++ (step remote now t (world c)).2)).
Proof.
  intros Hrep Hidle (mains & pend & removed & done & Hpool & Hout & Hids & Hph) Hi.
  destruct c as [w tasks]. cbn [world pool] in *.
  destruct (pool_pick _ _ _ _ _ Hpool Hi (phase_mains _ _ _ Hph))
    as [[-> Hdel] | (it & pend' & -> & Hpend & Hdel)]; cycle 1.
  { (* the removal of a replayed item *)
    cbn [step fst snd]. exists mains, pend', (OutboxItem.id it :: removed), done.
    cbn [world pool]. split; [by rewrite app_nil_r |]. split; [| split].
    - cbn. rewrite Hout. apply filter_not_removed.
    - rewrite <- Hids, Hpend. cbn. by rewrite Permutation_middle.
    - by eapply phase_same; [.. | exact Hph]. }
  inversion Hph as
    [Hon Hsh | Hsh
    | done' item rest added Hsnap Hcont Hsh Hadd
    | done' item error rest added Hsnap Hcont Hrem Hcl Hsh Hadd
    | done' item error rest added Hsnap Hcont Hrem Hcl Hsh Hadd
    | added Hcont Hsh Hadd | | |]; subst; clear Hph.
  - (* sync() passes its guard *)
    cbn [step]. unfold shouldSkipSync.
    destruct Hsh as (Hp & Hst & Hc & Hn). rewrite Hst, Hidle, Hon. cbn.
    exists [AwaitGetOutbox], pend, removed, []. cbn [world pool].
    split; [by rewrite Hdel, (comm (++)) |]. split; [done |]. split; [done |].
    by apply PhSnapshot.
  - (* the queue is read *)
    cbn in Hids. apply Permutation_nil_r in Hids. apply app_eq_nil in Hids as [-> Hpend].
    apply fmap_nil_inv in Hpend as ->.
    rewrite filter_none_removed in Hout.
    cbn [step]. unfold getOutbox. rewrite Hout. fold (getOutbox (store w0)). fold snap.
    destruct snap as [| item rest] eqn:Hsnap.
    + cbn. exists [], [], [], []. cbn. repeat split; try done.
      * by rewrite Hdel.
      * by rewrite filter_none_removed.
      * by apply PhNothing.
    + cbn [length Nat.eqb processOutboxItems subscribeNext].
      assert (replayable item) as Hitem by (by apply Forall_cons in Hrep as [? _]).
      rewrite (processItem_replayable _ _ _ Hitem). cbn [fst snd].
      exists [AwaitResponse item rest], [], [], []. cbn [world pool].
      split; [by rewrite Hdel |]. split; [cbn; by rewrite filter_none_removed |].
      split; [done |].
      eapply (PhResponse _ _ _ [] item rest []); [done | done | | constructor].
      apply Shows_logNet. unfold startSync.
      replace (Z.of_nat (S (length rest))) with (total w0)
        by (unfold total; by rewrite Hsnap).
      by apply (Shows_updateStatus w [] (currentStatus w0) [] []).
  - (* a response arrives *)
    cbn [step].
    assert (replayable item) as Hitem.
    { rewrite Forall_forall in Hrep. apply Hrep. rewrite Hsnap. apply elem_of_app. right. by left. }
    destruct (remote item) as [b | error] eqn:Hrem.
    + set (w1 := incrementCompletedItems (logNet w (Settled item (Replied b)))).
      destruct (phase_next done item rest added w1) as (m & Hm & Hnext); try done.
      * apply Forall_app. split; [done |]. constructor; [| done].
        unfold continuing. by rewrite Hrem.
      * subst w1. unfold incrementCompletedItems.
        rewrite statuses_snoc, (statusAfter_replied _ _ _ Hrem), replay_snoc, Hrem.
        destruct Hsh as (Hp & Hst & Hc & Hn). unfold Shows. cbn. rewrite Hst. cbn.
        rewrite Hp, Hn, Hc, <- !(assoc_L (++)). done.
      * rewrite conflictsFor_app. cbn. rewrite Hrem. by rewrite app_nil_r.
      * pose proof (subscribeNext_store rest w1) as Hstore.
        destruct (subscribeNext rest w1) as [w2 next]. cbn [fst snd] in *. subst next.
        unfold handleSuccessfulRequest. rewrite (hasValidItemId_replayable _ Hitem).
        assert (dequeued remote item = negb (nullish b)) as Hdq
          by (unfold dequeued; by rewrite Hrem).
        destruct (nullish b); cbn [negb] in Hdq.
        -- (* an empty response: the handler throws, the item stays *)
           exists [m], pend, removed, (done ++ [item]). cbn [world pool].
           split; [| split; [| split]]; [| by rewrite Hstore | | done].
           ++ rewrite Hdel. cbn. by rewrite (comm (++)).
           ++ by rewrite dequeuedKeys_snoc, Hdq, app_nil_r.
        -- exists [m], (item :: pend), removed, (done ++ [item]). cbn [world pool].
           split; [| split; [| split]]; [| by rewrite Hstore | | done].
           ++ rewrite Hdel. cbn. rewrite (comm (++)). cbn. apply Permutation_swap.
           ++ rewrite dequeuedKeys_snoc, Hdq, <- Hids. cbn. rewrite <- Permutation_middle.
              by rewrite (comm (++) _ [_]).
    + destruct (isClientError (err_status error)) eqn:Hcl; cbn [fst snd].
      * exists [AwaitAddConflict item error rest], pend, removed, done. cbn [world pool].
        split; [by rewrite Hdel, (comm (++)) |]. split; [done |]. split; [done |].
        eapply PhAdd; eauto.
        rewrite replay_snoc, Hrem.
        destruct Hsh as (Hp & Hst & Hc & Hn). unfold Shows. cbn.
        rewrite Hp, Hn, Hc, <- !(assoc_L (++)). done.
      * exists [], pend, removed, done. cbn [world pool].
        split; [by rewrite Hdel, app_nil_r |]. split; [done |]. split; [done |].
        eapply PhHalted; eauto.
        rewrite replay_snoc, Hrem.
        destruct Hsh as (Hp & Hst & Hc & Hn). unfold Shows, handleServerError. cbn.
        rewrite Hst. cbn. rewrite Hp, Hn, Hc, <- !(assoc_L (++)). done.
  - (* the conflict is recorded *)
    cbn [step].
    assert (replayable item) as Hitem.
    { rewrite Forall_forall in Hrep. apply Hrep. rewrite Hsnap. apply elem_of_app. right. by left. }
    rewrite (hasValidItemId_replayable _ Hitem). cbn [fst snd].
    exists [AwaitRemoveConflicted item rest], pend, removed, done. cbn [world pool].
    split; [by rewrite Hdel, (comm (++)) |]. split; [done |]. split; [done |].
    eapply (PhRemove _ _ _ done item error rest); eauto.
    + destruct Hsh as (Hp & Hst & Hc & Hn). unfold Shows. cbn.
      rewrite Hc, <- (assoc_L (++)). done.
    + rewrite conflictsFor_app. cbn. rewrite Hrem, Hcl.
      apply Forall2_app; [done |]. constructor; [| constructor].
      apply recordsConflict_stored.
  - (* the conflicted item leaves the queue *)
    cbn [step]. unfold finishClientError.
    match goal with |- context [subscribeNext rest ?w'] => set (w1 := w') end.
    destruct (phase_next done item rest added w1) as (m & Hm & Hnext); try done.
    + apply Forall_app. split; [done |]. constructor; [| done].
      unfold continuing. by rewrite Hrem.
    + subst w1. rewrite statuses_snoc, (statusAfter_rejected _ _ _ Hrem Hcl).
      destruct Hsh as (Hp & Hst & Hc & Hn). unfold Shows. cbn. rewrite Hst. cbn.
      rewrite Hp, Hn, Hc, <- !(assoc_L (++)). done.
    + pose proof (subscribeNext_store rest w1) as Hstore.
      destruct (subscribeNext rest w1) as [w2 next]. cbn [fst snd] in *. subst next.
      exists [m], pend, (OutboxItem.id item :: removed), (done ++ [item]). cbn [world pool].
      split; [| split; [| split]]; [| | | done].
      * by rewrite Hdel, (comm (++)).
      * rewrite Hstore. subst w1. cbn. rewrite Hout. apply filter_not_removed.
      * assert (dequeued remote item = true) as Hdq by (unfold dequeued; by rewrite Hrem).
        rewrite dequeuedKeys_snoc, Hdq, <- Hids. cbn. rewrite (comm (++) _ [_]). done.
  - (* the last queue read returns *)
    cbn [step fst snd].
    exists [], pend, removed, snap. cbn [world pool].
    split; [by rewrite Hdel, app_nil_r |]. split; [done |]. split; [done |].
    eapply PhFinished; eauto. by eapply Shows_updateStatus.
Qed.


Lemma handled_app done l :
  Forall (λ it, continuing remote it = true) done →
  handled remote (done ++ l) = done ++ handled remote l
  ∧ halting remote (done ++ l) = halting remote l.
Proof.
  induction 1 as [| x done Hx _ [IH1 IH2]]; [done |].
  cbn. rewrite Hx, IH1, IH2. done.
Qed.

Lemma handled_all l :
  Forall (λ it, continuing remote it = true) l →
  handled remote l = l ∧ halting remote l = None.
Proof.
  intros H. destruct (handled_app l [] H) as [H1 H2].
  cbn in H1, H2. rewrite !app_nil_r in H1, H2. done.
Qed.

Lemma handled_halt done item rest :
  Forall (λ it, continuing remote it = true) done →
  continuing remote item = false →
  handled remote (done ++ item :: rest) = done
  ∧ halting remote (done ++ item :: rest) = Some item.
Proof.
  intros H Hi. destruct (handled_app done (item :: rest) H) as [-> ->].
  cbn. rewrite Hi, app_nil_r. done.
Qed.

Lemma attempted_app done l :
  Forall (λ it, continuing remote it = true) done →
  attempted remote (done ++ l) = done ++ attempted remote l.
Proof.
  intros H. unfold attempted. destruct (handled_app done l H) as [-> ->].
  by rewrite (assoc_L (++)).
Qed.

Lemma attempted_cons item rest : ∃ more, attempted remote (item :: rest) = item :: more.
Proof.
  unfold attempted. cbn. destruct (continuing remote item); cbn; by eexists.
Qed.

Lemma attempted_all l :
  Forall (λ it, continuing remote it = true) l → attempted remote l = l.
Proof.
  intros H. unfold attempted. destruct (handled_all l H) as [-> ->]. cbn. apply app_nil_r.
Qed.

Lemma sequentialFrom_replay l tl :
  sequentialFrom false (replay remote l ++ tl) = sequentialFrom false tl.
Proof. induction l as [| x l IH]; [done |]. cbn. exact IH. Qed.

Lemma oneInFlight_replay l : oneInFlight (replay remote l) = true.
Proof.
  unfold oneInFlight. rewrite <- (app_nil_r (replay remote l)).
  by rewrite sequentialFrom_replay.
Qed.

Lemma oneInFlight_issued l request :
  oneInFlight (replay remote l ++ [Issued request]) = true.
Proof. unfold oneInFlight. by rewrite sequentialFrom_replay. Qed.

Lemma replay_prefix done more : replay remote done `prefix_of` replay remote (done ++ more).
Proof. unfold replay. rewrite flat_map_app. by apply prefix_app_r. Qed.

Lemma replay_issued_prefix done item rest :
  replay remote done ++ [Issued (callOf item)] `prefix_of` replay remote (done ++ item :: rest).
Proof.
  unfold replay. rewrite flat_map_app. apply prefix_app. cbn.
  apply prefix_cons, prefix_nil.
Qed.

End DrainFacts.

Lemma handled_subset remote l x : x ∈ handled remote l → x ∈ l.
Proof.
  induction l as [| y l IH]; [done |]. cbn.
  destruct (continuing remote y); [| by intros ?%elem_of_nil].
  intros [-> | H]%elem_of_cons; [by left | right; auto].
Qed.

Lemma same_key_same_item (l : list OutboxItem.t) x y :
  NoDup (OutboxItem.id <$> l) → x ∈ l → y ∈ l → OutboxItem.id x = OutboxItem.id y → x = y.
Proof.
  induction l as [| z l IH]; cbn; intros Hnd Hx Hy Hid; [by apply elem_of_nil in Hx |].
  apply NoDup_cons in Hnd as [Hz Hnd].
  apply elem_of_cons in Hx as [-> | Hx]; apply elem_of_cons in Hy as [-> | Hy]; auto.
  - exfalso. apply Hz. rewrite Hid. by apply list_elem_of_fmap_2.
  - exfalso. apply Hz. rewrite <- Hid. by apply list_elem_of_fmap_2.
Qed.

Lemma conflictsFor_elem remote l item error :
  item ∈ l → remote item = Failed error → isClientError (err_status error) = true →
  (item, error) ∈ conflictsFor remote l.
Proof.
  intros Hin Hrem Hcl. induction l as [| y l IH]; [by apply elem_of_nil in Hin |].
  apply elem_of_cons in Hin as [<- | Hin]; cbn.
  - rewrite Hrem, Hcl. by left.
  - destruct (remote y) as [| e]; [by apply IH |].
    destruct (isClientError (err_status e)); [right |]; by apply IH.
Qed.

Section DrainResults.

Variables (remote : Remote) (w0 : World).

#[local] Abbreviation snap := (snapshot w0).
#[local] Abbreviation Phase := (Phase remote w0).
#[local] Abbreviation DrainInv := (DrainInv remote w0).
#[local] Abbreviation cont := (λ it, continuing remote it = true).

Lemma phase_done_handled w mains done :
  Phase w mains done → ∃ more, handled remote snap = done ++ more.
Proof.
  destruct 1 as
    [| | done item rest added Hsnap Hcont
     | done item error rest added Hsnap Hcont
     | done item error rest added Hsnap Hcont
     | added Hcont | added Hcont | | done item error rest added Hsnap Hcont];
    try (by eexists); try (rewrite Hsnap; rewrite (proj1 (handled_app remote _ _ Hcont));
                            by eexists);
    exists []; rewrite app_nil_r; by apply handled_all.
Qed.

Lemma phase_network w mains done :
  Phase w mains done →
  ∃ net, network w = network w0 ++ net
         ∧ net `prefix_of` replay remote (attempted remote snap) ∧ oneInFlight net = true.
Proof.
  destruct 1 as
    [? Hsh | Hsh | done item rest added Hsnap Hcont Hsh
     | done item error rest added Hsnap Hcont ? ? Hsh
     | done item error rest added Hsnap Hcont ? ? Hsh
     | added Hcont Hsh | added Hcont Hsh | ? Hsh
     | done item error rest added Hsnap Hcont ? ? Hsh];
    destruct Hsh as (_ & _ & _ & Hn); eexists; (split; [exact Hn |]);
    try (rewrite Hsnap, (attempted_app remote _ _ Hcont);
         destruct (attempted_cons remote item rest) as (more & ->)).
  - split; [apply prefix_nil | done].
  - split; [apply prefix_nil | done].
  - split; [apply replay_issued_prefix | apply oneInFlight_issued].
  - split; [| apply oneInFlight_replay].
    rewrite (cons_middle item done more), (assoc_L (++)). apply replay_prefix.
  - split; [| apply oneInFlight_replay].
    rewrite (cons_middle item done more), (assoc_L (++)). apply replay_prefix.
  - split; [by rewrite attempted_all | apply oneInFlight_replay].
  - split; [by rewrite attempted_all | apply oneInFlight_replay].
  - split; [apply prefix_nil | done].
  - split; [| apply oneInFlight_replay].
    rewrite (cons_middle item done more), (assoc_L (++)). apply replay_prefix.
Qed.

Lemma phase_conflicts w mains done :
  Phase w mains done →
  ∃ added extra,
    syncConflicts (store w) = syncConflicts (store w0) ++ added
    ∧ Forall2 recordsConflict (conflictsFor remote done ++ extra) added.
Proof.
  destruct 1 as
    [? Hsh | Hsh | done item rest added Hsnap Hcont Hsh Hadd
     | done item error rest added Hsnap Hcont ? ? Hsh Hadd
     | done item error rest added Hsnap Hcont ? ? Hsh Hadd
     | added Hcont Hsh Hadd | added Hcont Hsh Hadd | ? Hsh
     | done item error rest added Hsnap Hcont ? ? Hsh Hadd];
    destruct Hsh as (_ & _ & Hc & _).
  all: try (exists added, []; rewrite app_nil_r; by split).
  all: try (exists [], []; split; [done | constructor]).
  exists added, (conflictsFor remote [item]). split; [done |].
  by rewrite <- conflictsFor_app.
Qed.

(** What a drain at rest has done. *)
Lemma phase_final w done :
  Phase w [] done →
  done = handled remote snap
  ∧ (∃ added, syncConflicts (store w) = syncConflicts (store w0) ++ added
              ∧ Forall2 recordsConflict (conflictsFor remote (handled remote snap)) added)
  ∧ network w = network w0 ++ replay remote (attempted remote snap)
  ∧ (snap ≠ [] →
       published w
       = published w0 ++ statuses remote w0 (handled remote snap)
           ++ [finalStatus remote (total w0) snap]
       ∧ currentStatus w = finalStatus remote (total w0) snap).
Proof.
  intros Hph. inversion Hph as
    [| | | | | | added Hcont Hsh Hadd | Hnil Hsh
     | done' item error rest added Hsnap Hcont Hrem Hcl Hsh Hadd]; subst.
  - destruct (handled_all remote _ Hcont) as [Hh Hn].
    unfold finalStatus, attempted. rewrite Hh, Hn. cbn. rewrite app_nil_r.
    destruct Hsh as (Hp & Hst & Hc & Hnet).
    split; [done |]. split; [by exists added |]. split; [done |].
    intros _. by rewrite Hp, (assoc_L (++)).
  - rewrite Hnil. cbn. destruct Hsh as (Hp & Hst & Hc & Hnet).
    split; [done |]. split; [exists []; split; [done | constructor] |].
    split; [done |]. done.
  - assert (continuing remote item = false) as Hhalt by (unfold continuing; by rewrite Hrem).
    destruct (handled_halt remote done item rest Hcont Hhalt) as [Hh Hn].
    unfold finalStatus, attempted. rewrite Hsnap, Hh, Hn. cbn.
    destruct Hsh as (Hp & Hst & Hc & Hnet).
    split; [done |]. split; [by exists added |]. split; [done |].
    intros _. by rewrite Hp, (assoc_L (++)).
Qed.

Hypothesis Honline : isOnline w0 = true.
Hypothesis Hidle : isSyncing (currentStatus w0) = false.
Hypothesis Hwf : outbox_wf (store w0).
Hypothesis Hmut : pendingMutations (outbox (store w0)).

Lemma snapshot_perm : snap ≡ₚ outbox (store w0).
Proof. apply index_sort_perm. Qed.

Lemma snapshot_replayable : Forall replayable snap.
Proof.
  rewrite snapshot_perm. destruct Hwf as (_ & Hk & _). unfold pendingMutations in Hmut.
  rewrite Forall_forall in *. intros it Hit. split; [| by apply Hmut].
  specialize (Hk it Hit). lia.
Qed.

Lemma snapshot_NoDup : NoDup (OutboxItem.id <$> snap).
Proof.
  rewrite snapshot_perm. apply ascending_keys_NoDup. by destruct Hwf.
Qed.

(** The invariant holds wherever a schedule leads. *)
Lemma drain_reachable sched :
  DrainInv (exec (step remote) sched (mkConfig w0 [CallSync])).
Proof.
  apply exec_invariant.
  - intros c i now t Hc Hi. apply drain_inv_step; auto using snapshot_replayable.
  - exists [CallSync], [], [], []. cbn. repeat split; try done.
    + by rewrite filter_none_removed.
    + apply PhCall; [done |]. unfold Shows. by rewrite !app_nil_r.
Qed.

Lemma drain_at_rest sched :
  let c := exec (step remote) sched (mkConfig w0 [CallSync]) in
  pool c = [] →
  Phase (world c) [] (handled remote snap)
  ∧ outbox (store (world c))
    = filter (λ it, OutboxItem.id it ∉ dequeuedKeys remote (handled remote snap))
        (outbox (store w0)).
Proof.
  intros c Hrest.
  destruct (drain_reachable sched) as (mains & pend & removed & done & Hpool & Hout & Hids & Hph).
  fold c in Hpool, Hout, Hph. rewrite Hrest in Hpool.
  apply Permutation_nil_l in Hpool. symmetry in Hpool.
  apply app_eq_nil in Hpool as [-> Hpend]. apply fmap_nil_inv in Hpend as ->.
  cbn in Hids. rewrite app_nil_r in Hids.
  destruct (phase_final _ _ Hph) as [Hdone _]. rewrite <- Hdone.
  split; [done |]. rewrite Hout. apply list_filter_iff. intros x. by rewrite Hids.
Qed.

(** A record stays in the queue as long as the drain has not dealt with it. *)
Lemma drain_keeps_unhandled sched it :
  it ∈ outbox (store w0) →
  OutboxItem.id it ∉ OutboxItem.id <$> handled remote snap →
  it ∈ outbox (store (world (exec (step remote) sched (mkConfig w0 [CallSync])))).
Proof.
  intros Hit Hid.
  destruct (drain_reachable sched) as (mains & pend & removed & done & Hpool & Hout & Hids & Hph).
  rewrite Hout. apply list_elem_of_filter. split; [| done].
  intros Hrem. apply Hid.
  destruct (phase_done_handled _ _ _ Hph) as (more & ->).
  rewrite fmap_app. apply elem_of_app. left. apply (dequeuedKeys_subset remote).
  rewrite <- Hids. apply elem_of_app. by left.
Qed.


(** A client-error item is in the queue until its conflict record exists. *)
Lemma drain_never_loses sched done item rest error :
  snap = done ++ item :: rest →
  remote item = Failed error →
  isClientError (err_status error) = true →
  let w := world (exec (step remote) sched (mkConfig w0 [CallSync])) in
  item ∈ outbox (store w)
  ∨ ∃ added c, syncConflicts (store w) = syncConflicts (store w0) ++ added
               ∧ c ∈ added ∧ recordsConflict (item, error) c.
Proof.
  intros Hsnap Hrem Hcl w. subst w.
  destruct (drain_reachable sched)
    as (mains & pend & removed & done' & Hpool & Hout & Hids & Hph).
  assert (item ∈ snap) as Hitem by (rewrite Hsnap; apply elem_of_app; right; by left).
  destruct (decide (OutboxItem.id item ∈ removed)) as [Hin | Hnot].
  - right.
    assert (OutboxItem.id item ∈ OutboxItem.id <$> done') as Hd.
    { apply (dequeuedKeys_subset remote). rewrite <- Hids. apply elem_of_app. by left. }
    apply list_elem_of_fmap in Hd as (item' & Hid & Hd).
    destruct (phase_done_handled _ _ _ Hph) as (more & Hh).
    assert (item' ∈ snap) as Hitem'.
    { apply (handled_subset remote). rewrite Hh. apply elem_of_app. by left. }
    assert (item' = item) as ->.
    { eapply (same_key_same_item snap); eauto using snapshot_NoDup. }
    destruct (phase_conflicts _ _ _ Hph) as (added & extra & Hc & Hadd).
    assert ((item, error) ∈ conflictsFor remote done' ++ extra) as Hp.
    { apply elem_of_app. left. by apply conflictsFor_elem. }
    apply list_elem_of_lookup in Hp as (k & Hk).
    destruct (Forall2_lookup_l _ _ _ _ _ Hadd Hk) as (c & Hck & Hrc).
    exists added, c. split; [done |]. split; [| done].
    by eapply list_elem_of_lookup_2.
  - left. rewrite Hout. apply list_elem_of_filter. split; [done |].
    by rewrite <- snapshot_perm.
Qed.

End DrainResults.

(* ===================================================================== *)
(** * The orchestrator: the claims *)
(* ===================================================================== *)

(** The guard of [sync()]: while a drain is marked as running, or while the
    device is offline, a call changes nothing and schedules nothing. *)
Lemma sync_skipped_is_noop (remote : Remote) (now : Z) (w : World) :
  isSyncing (currentStatus w) = true ∨ isOnline w = false →
  step remote now CallSync w = (w, []).
Proof.
  intros H. cbn. unfold shouldSkipSync.
  destruct H as [-> | ->]; [done |]. by rewrite orb_true_r.
Qed.

(** X23. One call of [sync()] never has more than one drain running. *)
Lemma single_sync_single_drain (remote : Remote) (w0 : World) sched :
  isOnline w0 = true →
  isSyncing (currentStatus w0) = false →
  outbox_wf (store w0) →
  pendingMutations (outbox (store w0)) →
  (activeDrains (exec (step remote) sched (mkConfig w0 [CallSync])) ≤ 1)%nat.
Proof.
  intros Hon Hidle Hwf Hmut.
  destruct (drain_reachable remote w0 Hon Hidle Hwf Hmut sched)
    as (mains & pend & removed & done & Hpool & _ & _ & Hph).
  unfold activeDrains. rewrite Hpool, filter_app, length_app.
  pose proof (length_filter (λ t, isDrainTask t = true) mains).
  pose proof (phase_mains _ _ _ _ _ Hph).
  assert (filter (λ t, isDrainTask t = true) (AwaitRemoveReplayed <$> pend) = []) as ->.
  { clear Hpool. induction pend as [| x pend IH]; [done |].
    rewrite fmap_cons, filter_cons_False by (cbn; discriminate). exact IH. }
  cbn. lia.
Qed.

(** C2 fails on the code: two calls of [sync()] made before either has read
    the queue both pass the guard, because [isSyncing] is only set after the
    read.  Both start a drain of the same snapshot: two drains are active,
    the start status is published twice, and the same mutation is sent a
    second time while its first call is still in flight. *)
Theorem concurrent_syncs_start_two_drains :
  let c := exec (step accepts) (oldestFirst 4) (mkConfig (queued [putNote] 2) [CallSync; CallSync]) in
  pool c = [AwaitResponse putNote []; AwaitResponse putNote []]
  ∧ activeDrains c = 2%nat
  ∧ network (world c)
    = [Issued (mkRequest "PUT" "/api/session-notes/1" (JsObj [("note", JsStr "x")]));
       Issued (mkRequest "PUT" "/api/session-notes/1" (JsObj [("note", JsStr "x")]))]
  ∧ oneInFlight (network (world c)) = false
  ∧ published (world c) = [mkStatus true 1 0 0; mkStatus true 1 0 0].
Proof. cbv zeta. repeat split; vm_compute; reflexivity. Qed.

(** C1, as stated, fails: the drain replays the queue as the
    [by-timestamp] index lists it, not as it was filled.  Two mutations are
    queued by the router while offline, a PUT and then a DELETE of the same
    note, and the clock steps back between them.  The drain sends the
    DELETE, queued second, before the PUT. *)
Lemma replay_follows_timestamps_not_enqueue_order :
  let put := mkRequest "PUT" "/api/session-notes/1" (JsObj [("note", JsStr "x")]) in
  let del := mkRequest "DELETE" "/api/session-notes/1" JsNull in
  let s1 := store_after (intercept false 2000 put noNetwork emptyStore) in
  let s2 := store_after (intercept false 1000 del noNetwork s1) in
  let first := OutboxItem.mk 1 "/api/session-notes/1" "PUT" (JsObj [("note", JsStr "x")]) 2000 in
  let second := OutboxItem.mk 2 "/api/session-notes/1" "DELETE" emptyObject 1000 in
  let c := exec (step accepts) (oldestFirst 9)
             (mkConfig (mkWorld s2 true idleStatus [] []) [CallSync]) in
  outbox s2 = [first; second]
  ∧ pool c = []
  ∧ network (world c)
    = [Issued del; Settled second (Replied okBody); Issued put; Settled first (Replied okBody)].
Proof. cbv zeta. repeat split; vm_compute; reflexivity. Qed.

(** C1 (amended): a drain in which every call succeeds sends the queued
    mutations in the order of the [by-timestamp] index, one call at a time.
    The snapshot it replays is the queue sorted by timestamp, records with
    equal timestamps in insertion (key) order; it is the queue as it was
    filled whenever the timestamps do not decrease along it.  The call sent
    for a record has the record's method and url and, except for a DELETE,
    its payload as body.  At every configuration any schedule reaches, the
    calls made so far are a prefix of that replay and no call was issued
    while another was in flight; once nothing is pending every mutation has
    been sent; and the drain does come to rest. *)
Theorem drain_replays_in_timestamp_order (remote : Remote) (w0 : World) :
  isOnline w0 = true →
  isSyncing (currentStatus w0) = false →
  outbox_wf (store w0) →
  pendingMutations (outbox (store w0)) →
  (∀ it, ∃ b, remote it = Replied b) →
  let items := getOutbox (store w0) in
  let c0 := mkConfig w0 [CallSync] in
  (items ≡ₚ outbox (store w0)
   ∧ StronglySorted indexOrder items
   ∧ (enqueuedInTimeOrder (outbox (store w0)) → items = outbox (store w0)))
  ∧ (∀ sched, ∃ net,
      network (world (exec (step remote) sched c0)) = network w0 ++ net
      ∧ net `prefix_of` replay remote items
      ∧ oneInFlight net = true)
  ∧ (∀ sched, pool (exec (step remote) sched c0) = [] →
      network (world (exec (step remote) sched c0)) = network w0 ++ replay remote items)
  ∧ (∃ n, pool (exec (step remote) (oldestFirst n) c0) = []).
Proof.
  intros Hon Hidle Hwf Hmut Hok items c0. subst items c0.
  fold (snapshot w0).
  assert (attempted remote (snapshot w0) = snapshot w0) as Hatt.
  { rewrite attempted_all; [done |]. apply Forall_forall. intros it _.
    unfold continuing. by destruct (Hok it) as [b ->]. }
  split; [| split; [| split]].
  - split; [apply index_sort_perm |]. split; [apply index_sort_sorted |].
    intros Htime. apply index_sort_in_order; [by destruct Hwf | done].
  - intros sched.
    destruct (drain_reachable remote w0 Hon Hidle Hwf Hmut sched)
      as (mains & pend & removed & done & _ & _ & _ & Hph).
    destruct (phase_network _ _ _ _ _ Hph) as (net & Hn & Hpre & Hseq).
    exists net. by rewrite <- Hatt.
  - intros sched Hrest.
    destruct (drain_at_rest remote w0 Hon Hidle Hwf Hmut sched Hrest) as [Hph _].
    destruct (phase_final _ _ _ _ Hph) as (_ & _ & Hn & _). by rewrite Hn, Hatt.
  - eexists. apply drain_terminates.
Qed.

(** A queue of three mutations, the first two with equal timestamps. *)
Lemma queued_notes_wf : outbox_wf (store (queued [putNote; postNote; deleteNote] 4)).
Proof.
  split; [| split]; cbn.
  - repeat constructor; cbn; lia.
  - repeat constructor; cbn; lia.
  - lia.
Qed.

Lemma queued_notes_pending : pendingMutations [putNote; postNote; deleteNote].
Proof. repeat constructor. Qed.

(** The three queued mutations are sent in queue order. *)
Lemma drain_replays_in_timestamp_order_witness :
  network (world (exec (step accepts) (oldestFirst 12)
                    (mkConfig (queued [putNote; postNote; deleteNote] 4) [CallSync])))
  = replay accepts [putNote; postNote; deleteNote].
Proof.
  refine (proj1 (proj2 (proj2 (drain_replays_in_timestamp_order accepts
                                 (queued [putNote; postNote; deleteNote] 4)
                                 eq_refl eq_refl queued_notes_wf queued_notes_pending _)))
            (oldestFirst 12) _).
  - intros it. by exists okBody.
  - vm_compute. reflexivity.
Defined.

(** C4: when the call for an item fails with a network or server error
    (any failure whose status is not 400-499), the drain stops there.  At
    every configuration any schedule reaches, the failed item and all later
    items of the snapshot are still in the queue as they were, and only
    earlier items and the failed one have been sent.  Once nothing is
    pending, the failed call is the last one made, the conflict log has
    gained records for earlier client errors only, the status counts the
    earlier items only, and the queue has lost earlier items only: those
    answered with a response that is not [null] or [undefined] and those
    rejected with a client error.  The drain does come to rest. *)
Theorem drain_halts_on_transient_failure (remote : Remote) (w0 : World)
    (done : list OutboxItem.t) (item : OutboxItem.t) (rest : list OutboxItem.t)
    (error : HttpErrorResponse) :
  isOnline w0 = true →
  isSyncing (currentStatus w0) = false →
  outbox_wf (store w0) →
  pendingMutations (outbox (store w0)) →
  getOutbox (store w0) = done ++ item :: rest →
  Forall (λ it, continuing remote it = true) done →
  remote item = Failed error →
  isClientError (err_status error) = false →
  let c0 := mkConfig w0 [CallSync] in
  (∀ sched,
      (∀ it, it ∈ item :: rest → it ∈ outbox (store (world (exec (step remote) sched c0))))
      ∧ ∃ net, network (world (exec (step remote) sched c0)) = network w0 ++ net
               ∧ net `prefix_of` replay remote (done ++ [item]))
  ∧ (∀ sched, pool (exec (step remote) sched c0) = [] →
      let w := world (exec (step remote) sched c0) in
      network w = network w0 ++ replay remote (done ++ [item])
      ∧ (∃ added, syncConflicts (store w) = syncConflicts (store w0) ++ added
                  ∧ Forall2 recordsConflict (conflictsFor remote done) added)
      ∧ currentStatus w
        = mkStatus false (Z.of_nat (length (done ++ item :: rest)))
            (Z.of_nat (length done)) (Z.of_nat (length (conflictsFor remote done)))
      ∧ outbox (store w)
        = filter (λ it, OutboxItem.id it ∉ dequeuedKeys remote done) (outbox (store w0)))
  ∧ (∃ n, pool (exec (step remote) (oldestFirst n) c0) = []).
Proof.
  intros Hon Hidle Hwf Hmut Hsnap Hcont Hrem Hcl c0. subst c0.
  fold (snapshot w0) in Hsnap.
  assert (continuing remote item = false) as Hhalt by (unfold continuing; by rewrite Hrem).
  destruct (handled_halt remote done item rest Hcont Hhalt) as [Hh Hn].
  rewrite <- Hsnap in Hh, Hn.
  assert (attempted remote (snapshot w0) = done ++ [item]) as Hatt.
  { unfold attempted. by rewrite Hh, Hn. }
  split; [| split].
  - intros sched. split.
    + intros it Hit.
      assert (it ∈ snapshot w0) as Hin by (rewrite Hsnap; apply elem_of_app; by right).
      apply drain_keeps_unhandled; try done.
      * by rewrite <- (snapshot_perm w0).
      * rewrite Hh. intros Hid. apply list_elem_of_fmap in Hid as (it' & Hid & Hit').
        pose proof (snapshot_NoDup w0 Hwf) as Hnd. rewrite Hsnap, fmap_app in Hnd.
        apply NoDup_app in Hnd as (_ & Hdisj & _).
        apply (Hdisj (OutboxItem.id it')); [by apply list_elem_of_fmap_2 |].
        rewrite <- Hid. by apply list_elem_of_fmap_2.
    + destruct (drain_reachable remote w0 Hon Hidle Hwf Hmut sched)
        as (mains & pend & removed & done' & _ & _ & _ & Hph).
      destruct (phase_network _ _ _ _ _ Hph) as (net & Hnet & Hpre & _).
      exists net. by rewrite <- Hatt.
  - intros sched Hrest w. subst w.
    destruct (drain_at_rest remote w0 Hon Hidle Hwf Hmut sched Hrest) as [Hph Hout].
    destruct (phase_final _ _ _ _ Hph) as (_ & Hadd & Hnet & Hst).
    rewrite Hh in Hadd, Hout. rewrite Hatt in Hnet.
    split; [done |]. split; [done |]. split; [| done].
    destruct Hst as [_ Hst]; [rewrite Hsnap; by destruct done |].
    rewrite Hst. unfold finalStatus, haltedStatus, total. by rewrite Hn, Hh, Hsnap.
  - eexists. apply drain_terminates.
Qed.

(** The second of three calls fails with status 503: the third item stays. *)
Lemma drain_halts_on_transient_failure_witness :
  deleteNote ∈ outbox (store (world (exec (step (rejects 2 503)) (oldestFirst 12)
                                       (mkConfig (queued [putNote; postNote; deleteNote] 4)
                                          [CallSync])))).
Proof.
  refine (proj1 (proj1 (drain_halts_on_transient_failure (rejects 2 503)
                          (queued [putNote; postNote; deleteNote] 4)
                          [putNote] postNote [deleteNote] (mkError 503 "")
                          eq_refl eq_refl queued_notes_wf queued_notes_pending
                          eq_refl _ eq_refl eq_refl)
                   (oldestFirst 12)) deleteNote _).
  - repeat constructor.
  - right. left.
Defined.

(** C8, as stated, fails: a drain halted by a server error ends without the
    all-zero reset; its last status still carries the counters. *)
Lemma halted_drain_publishes_no_reset :
  let c := exec (step (rejects 1 500)) (oldestFirst 3)
             (mkConfig (queued [putNote] 2) [CallSync]) in
  pool c = []
  ∧ published (world c) = [mkStatus true 1 0 0; mkStatus false 1 0 0]
  ∧ currentStatus (world c) = mkStatus false 1 0 0.
Proof. cbv zeta. repeat split; vm_compute; reflexivity. Qed.

(** C8 (amended): a drain of a non-empty snapshot publishes, in this order,
    the start status (syncing, the snapshot size, zero counters), then one
    status per item it gets through, where a replayed item advances
    [completedItems] by one and a client-error item advances both
    [completedItems] and [failedItems] by one, and then one last status:
    the all-zero, not-syncing reset when it got through the whole snapshot,
    and a not-syncing status that keeps the counters when a network or
    server error halted it. *)
Theorem drain_publishes_every_transition (remote : Remote) (w0 : World) :
  isOnline w0 = true →
  isSyncing (currentStatus w0) = false →
  outbox_wf (store w0) →
  pendingMutations (outbox (store w0)) →
  getOutbox (store w0) ≠ [] →
  let items := getOutbox (store w0) in
  let n := Z.of_nat (length items) in
  let c0 := mkConfig w0 [CallSync] in
  (∀ sched, pool (exec (step remote) sched c0) = [] →
      published (world (exec (step remote) sched c0))
      = published w0 ++ (statusAfter remote n <$> prefixes (handled remote items))
          ++ [finalStatus remote n items]
      ∧ currentStatus (world (exec (step remote) sched c0)) = finalStatus remote n items)
  ∧ statusAfter remote n [] = mkStatus true n 0 0
  ∧ (∀ done item b, remote item = Replied b →
       statusAfter remote n (done ++ [item])
       = mkStatus true n (completedItems (statusAfter remote n done) + 1)
           (failedItems (statusAfter remote n done)))
  ∧ (∀ done item e, remote item = Failed e → isClientError (err_status e) = true →
       statusAfter remote n (done ++ [item])
       = mkStatus true n (completedItems (statusAfter remote n done) + 1)
           (failedItems (statusAfter remote n done) + 1))
  ∧ (Forall (λ it, continuing remote it = true) items →
       handled remote items = items ∧ finalStatus remote n items = idleStatus)
  ∧ (∀ done item rest e, items = done ++ item :: rest →
       Forall (λ it, continuing remote it = true) done →
       remote item = Failed e → isClientError (err_status e) = false →
       handled remote items = done
       ∧ finalStatus remote n items
         = mkStatus false n (completedItems (statusAfter remote n done))
             (failedItems (statusAfter remote n done)))
  ∧ (∃ k, pool (exec (step remote) (oldestFirst k) c0) = []).
Proof.
  intros Hon Hidle Hwf Hmut Hne items n c0. subst items n c0.
  fold (snapshot w0). fold (snapshot w0) in Hne. fold (total w0).
  split; [| split; [| split; [| split; [| split; [| split]]]]].
  - intros sched Hrest.
    destruct (drain_at_rest remote w0 Hon Hidle Hwf Hmut sched Hrest) as [Hph _].
    destruct (phase_final _ _ _ _ Hph) as (_ & _ & _ & Hst). by apply Hst.
  - done.
  - intros done item b Hrem. by rewrite (statusAfter_replied remote w0 _ _ _ Hrem).
  - intros done item e Hrem Hcl. by rewrite (statusAfter_rejected remote w0 _ _ _ Hrem Hcl).
  - intros Hcont. destruct (handled_all remote _ Hcont) as [Hh Hn].
    unfold finalStatus. by rewrite Hh, Hn.
  - intros done item rest e Hsnap Hcont Hrem Hcl.
    assert (continuing remote item = false) as Hhalt by (unfold continuing; by rewrite Hrem).
    destruct (handled_halt remote done item rest Hcont Hhalt) as [Hh Hn].
    unfold finalStatus. by rewrite Hsnap, Hh, Hn.
  - eexists. apply drain_terminates.
Qed.

(** The first of three calls is rejected with status 404. *)
Lemma drain_publishes_every_transition_witness :
  published (world (exec (step (rejects 1 404)) (oldestFirst 12)
                      (mkConfig (queued [putNote; postNote; deleteNote] 4) [CallSync])))
  = [mkStatus true 3 0 0; mkStatus true 3 1 1; mkStatus true 3 2 1; mkStatus true 3 3 1;
     idleStatus].
Proof.
  refine (proj1 (proj1 (drain_publishes_every_transition (rejects 1 404)
                          (queued [putNote; postNote; deleteNote] 4)
                          eq_refl eq_refl queued_notes_wf queued_notes_pending _)
                   (oldestFirst 12) _)).
  - discriminate.
  - vm_compute. reflexivity.
Defined.

(** C3, as stated, fails: the move is two store operations.  After the
    conflict record has been added and before the item is removed from the
    queue, the pending operations are at a scheduling point and the item is
    in both collections. *)
Lemma conflicted_item_is_in_both_collections :
  let c := exec (step (rejects 1 404)) (oldestFirst 4)
             (mkConfig (queued [putNote] 2) [CallSync]) in
  pool c = [AwaitRemoveConflicted putNote []]
  ∧ outbox (store (world c)) = [putNote]
  ∧ syncConflicts (store (world c))
    = [SyncConflict.mk 1 "/api/session-notes/1" "PUT" (JsObj [("note", JsStr "x")]) 1000
         "HTTP 404"].
Proof. cbv zeta. repeat split; vm_compute; reflexivity. Qed.

(** C3 (amended): a replayed mutation that receives a client error (4xx) is
    first recorded in the conflict log, with its url, method and payload,
    its timestamp (when that is not zero) and the error message, or
    [HTTP <status>] when the message is empty, and then removed from the
    queue.  At every configuration any schedule reaches it is in the queue
    or recorded in the conflict log, never in neither.  Once nothing is
    pending it is absent from the queue, the records the drain has added
    are one per client-error item in replay order, the one for this item
    among them, and the call for the next item of the snapshot has been
    issued.  The drain does come to rest. *)
Theorem client_error_moves_item_to_conflicts (remote : Remote) (w0 : World)
    (done : list OutboxItem.t) (item : OutboxItem.t) (rest : list OutboxItem.t)
    (error : HttpErrorResponse) :
  isOnline w0 = true →
  isSyncing (currentStatus w0) = false →
  outbox_wf (store w0) →
  pendingMutations (outbox (store w0)) →
  getOutbox (store w0) = done ++ item :: rest →
  Forall (λ it, continuing remote it = true) done →
  remote item = Failed error →
  isClientError (err_status error) = true →
  let c0 := mkConfig w0 [CallSync] in
  (∀ sched,
      let w := world (exec (step remote) sched c0) in
      item ∈ outbox (store w)
      ∨ (∃ added c, syncConflicts (store w) = syncConflicts (store w0) ++ added
                    ∧ c ∈ added ∧ recordsConflict (item, error) c))
  ∧ (∀ sched, pool (exec (step remote) sched c0) = [] →
      let w := world (exec (step remote) sched c0) in
      (item ∉ outbox (store w))
      ∧ (∃ before c after,
            syncConflicts (store w) = syncConflicts (store w0) ++ before ++ c :: after
            ∧ recordsConflict (item, error) c
            ∧ Forall2 recordsConflict (conflictsFor remote done) before
            ∧ Forall2 recordsConflict (conflictsFor remote (handled remote rest)) after)
      ∧ (∀ next rest', rest = next :: rest' → Issued (callOf next) ∈ network w))
  ∧ (∃ n, pool (exec (step remote) (oldestFirst n) c0) = []).
Proof.
  intros Hon Hidle Hwf Hmut Hsnap Hcont Hrem Hcl c0. subst c0.
  fold (snapshot w0) in Hsnap.
  assert (continuing remote item = true) as Hgo by (unfold continuing; by rewrite Hrem).
  assert (handled remote (snapshot w0) = done ++ item :: handled remote rest) as Hh.
  { rewrite Hsnap, (proj1 (handled_app remote done _ Hcont)). cbn. by rewrite Hgo. }
  split; [| split].
  - intros sched. by eapply drain_never_loses.
  - intros sched Hrest w. subst w.
    destruct (drain_at_rest remote w0 Hon Hidle Hwf Hmut sched Hrest) as [Hph Hout].
    destruct (phase_final _ _ _ _ Hph) as (_ & (added & Hc & Hadd) & Hnet & _).
    split; [| split].
    + rewrite Hout. intros Hin. apply list_elem_of_filter in Hin as [Hid _].
      apply Hid. rewrite Hh. unfold dequeuedKeys. apply list_elem_of_fmap_2.
      apply list_elem_of_filter. split; [unfold dequeued; by rewrite Hrem |].
      apply elem_of_app. right. by left.
    + rewrite Hh, conflictsFor_app in Hadd. cbn in Hadd. rewrite Hrem, Hcl in Hadd.
      apply Forall2_app_inv_l in Hadd as (before & tail & Hb & Htail & ->).
      apply Forall2_cons_inv_l in Htail as (c & after & Hrc & Ha & ->).
      by exists before, c, after.
    + intros next rest' ->. rewrite Hnet. apply elem_of_app. right.
      assert (Forall (λ it, continuing remote it = true) (done ++ [item])) as Hcont'.
      { apply Forall_app. split; [done |]. by constructor. }
      rewrite Hsnap, (cons_middle item done), (assoc_L (++)),
        (attempted_app remote _ _ Hcont').
      destruct (attempted_cons remote next rest') as (more & ->).
      unfold replay. rewrite flat_map_app. apply elem_of_app. right. by left.
  - eexists. apply drain_terminates.
Qed.

(** The first of three calls is rejected with status 404: it leaves the queue. *)
Lemma client_error_moves_item_to_conflicts_witness :
  putNote ∉ outbox (store (world (exec (step (rejects 1 404)) (oldestFirst 12)
                                    (mkConfig (queued [putNote; postNote; deleteNote] 4)
                                       [CallSync])))).
Proof.
  refine (proj1 (proj1 (proj2 (client_error_moves_item_to_conflicts (rejects 1 404)
                                 (queued [putNote; postNote; deleteNote] 4)
                                 [] putNote [postNote; deleteNote] (mkError 404 "")
                                 eq_refl eq_refl queued_notes_wf queued_notes_pending
                                 eq_refl _ eq_refl eq_refl))
                   (oldestFirst 12) _)).
  - constructor.
  - vm_compute. reflexivity.
Defined.

(* ===================================================================== *)
(** * Opening the store: the claims *)
(* ===================================================================== *)

(** A second call of [init()] made after the first has finished returns at
    the guard: one handle, one upgrade, the two sample notes. *)
Lemma sequential_inits_share_the_handle (isoDate : Z → string) :
  let c1 := exec (Init.step isoDate) (oldestFirst 5) (mkConfig Init.fresh [Init.CallInit]) in
  let c2 := exec (Init.step isoDate) (oldestFirst 5) (mkConfig (world c1) [Init.CallInit]) in
  pool c1 = [] ∧ pool c2 = []
  ∧ Init.handles (world c2) = 1%nat
  ∧ Init.upgrades (world c2) = 1%nat
  ∧ dom (Init.noteRecords (Init.database (world c2))) = {["1"; "2"]}.
Proof. cbv zeta. repeat split; vm_compute; reflexivity. Qed.

(** X20. However many calls of [init()] interleave, the upgrade callback runs
    at most once. *)
Lemma init_upgrades_at_most_once (isoDate : Z → string) sched (st : Init.State) tasks :
  Init.upgrades st = 0%nat →
  (Init.upgrades (world (exec (Init.step isoDate) sched (mkConfig st tasks))) ≤ 1)%nat.
Proof.
  intros H0.
  pose (I := λ c : Config Init.State Init.Task,
          Init.upgrades (world c) = 0%nat
          ∨ (Init.upgrades (world c) = 1%nat
             ∧ Init.version (Init.database (world c)) = Init.dbVersion)).
  assert (I (exec (Init.step isoDate) sched (mkConfig st tasks))) as [-> | [-> _]]; [| lia | lia].
  apply exec_invariant; [| by left].
  intros [s ts] i now t Hc _. unfold I in *. cbn [world] in *.
  destruct t; cbn [Init.step].
  - by destruct (Init.db s).
  - unfold Init.openDB.
    destruct (Z.ltb_spec Init.dbVersion (Init.version (Init.database s))); [done |].
    destruct (Z.ltb_spec (Init.version (Init.database s)) Init.dbVersion) as [Hlt | Hge].
    + destruct (bool_decide _); cbn; destruct Hc as [-> | [_ Hv]]; auto; lia.
    + by destruct (bool_decide _).
  - destruct (_ =? _)%nat; [| done]. done.
  - destruct (Init.noteRecords _ !! _); [done |].
    destruct rest; cbn; done.
Qed.

(** C9 fails on the code: two calls of [init()] made before either
    [openDB] has resolved both pass the [this.db] guard, so the database is
    opened twice and two handles exist; [this.db] ends up holding the second
    one.  The schema upgrade runs once, and the second seeding stops at its
    first [add], whose key is taken, so the sample notes are not
    duplicated. *)
Theorem concurrent_inits_open_two_handles (isoDate : Z → string) :
  let c := exec (Init.step isoDate) (oldestFirst 9)
             (mkConfig Init.fresh [Init.CallInit; Init.CallInit]) in
  pool c = []
  ∧ Init.handles (world c) = 2%nat
  ∧ Init.db (world c) = Some 1%nat
  ∧ Init.upgrades (world c) = 1%nat
  ∧ dom (Init.noteRecords (Init.database (world c))) = {["1"; "2"]}.
Proof. cbv zeta. repeat split; vm_compute; reflexivity. Qed.

(* ===================================================================== *)
(** * The object stores: further properties *)
(* ===================================================================== *)

Section SortFacts.

Context {A : Type} (leb : A → A → bool).

Lemma insertBy_perm x l : insertBy leb x l ≡ₚ x :: l.
Proof.
  induction l as [| y l IH]; [done |]. cbn.
  destruct (leb x y); [done |]. rewrite IH. apply Permutation_swap.
Qed.

Lemma sortBy_perm l : sortBy leb l ≡ₚ l.
Proof.
  induction l as [| x l IH]; [done |]. cbn. by rewrite insertBy_perm, IH.
Qed.

Hypothesis leb_total : ∀ x y, leb x y = false → leb y x = true.
Hypothesis leb_trans : ∀ x y z, leb x y = true → leb y z = true → leb x z = true.

Lemma insertBy_sorted x l :
  StronglySorted (λ a b, leb a b = true) l →
  StronglySorted (λ a b, leb a b = true) (insertBy leb x l).
Proof.
  induction 1 as [| y l Hs IH Hy]; cbn; [repeat constructor |].
  destruct (leb x y) eqn:Hxy.
  - constructor; [by constructor |]. constructor; [done |].
    eapply Forall_impl; [exact Hy |]. cbn. eauto.
  - constructor; [done |]. rewrite insertBy_perm. constructor; [auto | done].
Qed.

Lemma sortBy_sorted l : StronglySorted (λ a b, leb a b = true) (sortBy leb l).
Proof.
  induction l as [| x l IH]; cbn; [constructor | by apply insertBy_sorted].
Qed.

(** Sorting and selecting commute. *)
Lemma insertBy_filter (P : A → Prop) `{∀ x, Decision (P x)} x l :
  StronglySorted (λ a b, leb a b = true) l →
  filter P (insertBy leb x l)
  = if decide (P x) then insertBy leb x (filter P l) else filter P l.
Proof.
  induction 1 as [| y l Hs IH Hy]; cbn [insertBy].
  - rewrite filter_cons, !filter_nil. by destruct (decide (P x)).
  - destruct (leb x y) eqn:Hxy.
    + rewrite (filter_cons _ x). destruct (decide (P x)) as [Hx | Hx]; [| done].
      rewrite (filter_cons _ y). destruct (decide (P y)) as [Hy' | Hy'].
      * cbn [insertBy]. by rewrite Hxy.
      * f_equal. clear IH. induction l as [| z l IHl]; [done |].
        apply Forall_cons in Hy as [Hyz Hy]. apply StronglySorted_cons in Hs as [Hz Hs].
        rewrite (filter_cons _ z). destruct (decide (P z)).
        -- cbn [insertBy]. by rewrite (leb_trans _ _ _ Hxy Hyz).
        -- auto.
    + rewrite !(filter_cons _ y). destruct (decide (P y)).
      * rewrite IH. destruct (decide (P x)); [| done]. cbn [insertBy]. by rewrite Hxy.
      * by rewrite IH.
Qed.

Lemma sortBy_filter (P : A → Prop) `{∀ x, Decision (P x)} l :
  sortBy leb (filter P l) = filter P (sortBy leb l).
Proof.
  induction l as [| x l IH]; [done |]. cbn [sortBy].
  rewrite insertBy_filter by apply sortBy_sorted.
  rewrite filter_cons. destruct (decide (P x)); [| done]. cbn [sortBy]. by rewrite IH.
Qed.

End SortFacts.

Lemma index_sort_sortBy l : index_sort l = sortBy index_leb l.
Proof.
  induction l as [| x l IH]; [done |]. cbn. rewrite IH.
  generalize (sortBy index_leb l). intros m.
  induction m as [| y m IHm]; [done |]. cbn. by rewrite IHm.
Qed.

Lemma index_leb_total' x y : index_leb x y = false → index_leb y x = true.
Proof. intros H. apply index_leb_order. by apply index_leb_total. Qed.

Lemma index_leb_trans x y z :
  index_leb x y = true → index_leb y z = true → index_leb x z = true.
Proof. rewrite !index_leb_order. unfold indexOrder. lia. Qed.

Lemma index_sort_filter (P : OutboxItem.t → Prop) `{∀ x, Decision (P x)} l :
  index_sort (filter P l) = filter P (index_sort l).
Proof.
  rewrite !index_sort_sortBy.
  apply sortBy_filter; [apply index_leb_total' | apply index_leb_trans].
Qed.

Section StoreExtras.

Implicit Types (s : Store) (now : Z).

Lemma store_eta s :
  mkStore (outbox s) (outboxKey s) (syncConflicts s) (conflictsKey s) (cache s) (sessionNotes s)
  = s.
Proof. by destruct s. Qed.

Lemma filter_all {A : Type} (P : A → Prop) `{∀ x, Decision (P x)} (l : list A) :
  (∀ x, x ∈ l → P x) → filter P l = l.
Proof.
  induction l as [| x l IH]; intros Hall; [done |].
  rewrite filter_cons_True by (apply Hall; by left).
  rewrite IH; [done |]. intros y Hy. apply Hall. by right.
Qed.

Lemma runOutboxOps_spec ops s :
  outbox_wf s →
  outbox_wf (runOutboxOps ops s).1
  ∧ (runOutboxOps ops s).2
    = (λ i, outboxKey s + Z.of_nat i) <$> seq 0 (length (runOutboxOps ops s).2)
  ∧ outboxKey (runOutboxOps ops s).1
    = outboxKey s + Z.of_nat (length (runOutboxOps ops s).2)
  ∧ (∀ it, it ∈ outbox (runOutboxOps ops s).1 →
       it ∈ outbox s ∨ OutboxItem.id it ∈ (runOutboxOps ops s).2).
Proof.
  revert s. induction ops as [| [now item | id] ops IH]; intros s Hwf.
  - cbn. split; [done |]. split; [done |]. split; [lia | auto].
  - cbn [runOutboxOps].
    pose proof (addToOutbox_wf now item s Hwf) as Hwf1.
    destruct (addToOutbox now item s) as [s1 key] eqn:Hadd.
    assert (key = outboxKey s ∧ outboxKey s1 = outboxKey s + 1
            ∧ ∀ it, it ∈ outbox s1 → it ∈ outbox s ∨ OutboxItem.id it = key)
      as (-> & Hk1 & Hin1).
    { unfold addToOutbox in Hadd. injection Hadd as <- <-. cbn. repeat split.
      intros it [Hit | Hit]%elem_of_app; [by left |].
      apply list_elem_of_singleton in Hit as ->. by right. }
    cbn [fst] in Hwf1. destruct (IH s1 Hwf1) as (Hwf2 & Hkeys & Hkey & Hin2).
    destruct (runOutboxOps ops s1) as [s2 keys]. cbn [fst snd] in *.
    split; [done |]. split; [| split].
    + cbn [length seq]. rewrite fmap_cons. f_equal; [lia |].
      etrans; [exact Hkeys |]. rewrite <- fmap_S_seq, <- list_fmap_compose.
      apply list_fmap_ext. intros i x _. cbn. lia.
    + cbn [length]. lia.
    + intros it Hit. destruct (Hin2 it Hit) as [Hit1 | Hit2].
      * destruct (Hin1 it Hit1) as [? | ->]; [by left | right; by left].
      * right. by right.
  - cbn [runOutboxOps].
    pose proof (removeFromOutbox_wf id s Hwf) as Hwf1.
    destruct (IH _ Hwf1) as (Hwf2 & Hkeys & Hkey & Hin2).
    split; [done |]. split; [done |]. split; [done |].
    intros it Hit. destruct (Hin2 it Hit) as [Hit1 | Hit2]; [left | by right].
    cbn in Hit1. by apply list_elem_of_filter in Hit1 as [_ ?].
Qed.

(** X1. Whatever was added to and removed from the queue since the store
    was created, the [n]-th [addToOutbox] returned the key [n]: keys count
    up from 1 and a key is never given out a second time, also after its
    record was removed; the queue holds only records carrying such keys, in
    ascending key order. *)
Theorem outbox_keys_count_up (ops : list OutboxOp) :
  (runOutboxOps ops emptyStore).2
  = Z.of_nat <$> seq 1 (length (runOutboxOps ops emptyStore).2)
  ∧ NoDup (runOutboxOps ops emptyStore).2
  ∧ outbox_wf (runOutboxOps ops emptyStore).1
  ∧ (∀ it, it ∈ outbox (runOutboxOps ops emptyStore).1 →
       OutboxItem.id it ∈ (runOutboxOps ops emptyStore).2).
Proof.
  destruct (runOutboxOps_spec ops emptyStore emptyStore_wf) as (Hwf & Hkeys & _ & Hin).
  assert ((runOutboxOps ops emptyStore).2
          = Z.of_nat <$> seq 1 (length (runOutboxOps ops emptyStore).2)) as Heq.
  { etrans; [exact Hkeys |]. rewrite <- fmap_S_seq, <- list_fmap_compose.
    apply list_fmap_ext. intros i x _. cbn. lia. }
  split; [done |]. split; [| split; [done |]].
  - rewrite Heq. apply NoDup_fmap_2; [apply _ | apply NoDup_seq].
  - intros it Hit. destruct (Hin it Hit) as [Hit' | ?]; [| done].
    by apply elem_of_nil in Hit'.
Qed.

(** X2. [removeFromOutbox] takes exactly the record with the given key out
    of the listing and keeps the others in their order; it leaves the key
    generator and the other collections alone; removing a key a second
    time, or a key that is not queued, changes nothing. *)
Theorem removeFromOutbox_removes_only_that_key (id : Z) s :
  getOutbox (removeFromOutbox id s)
  = filter (λ it, OutboxItem.id it ≠ id) (getOutbox s)
  ∧ outboxKey (removeFromOutbox id s) = outboxKey s
  ∧ syncConflicts (removeFromOutbox id s) = syncConflicts s
  ∧ cache (removeFromOutbox id s) = cache s
  ∧ sessionNotes (removeFromOutbox id s) = sessionNotes s
  ∧ removeFromOutbox id (removeFromOutbox id s) = removeFromOutbox id s
  ∧ ((∀ it, it ∈ outbox s → OutboxItem.id it ≠ id) → removeFromOutbox id s = s).
Proof.
  split; [| repeat split].
  - unfold getOutbox. cbn. apply index_sort_filter.
  - unfold removeFromOutbox, withOutbox. cbn. f_equal.
    rewrite list_filter_filter. apply list_filter_iff. tauto.
  - intros Habs. unfold removeFromOutbox, withOutbox.
    rewrite filter_all by done. apply store_eta.
Qed.

(** A key that no queued record carries. *)
Lemma removeFromOutbox_removes_only_that_key_witness :
  removeFromOutbox 7 (store (queued [putNote; postNote] 3)) = store (queued [putNote; postNote] 3).
Proof.
  refine (proj2 (proj2 (proj2 (proj2 (proj2 (proj2
            (removeFromOutbox_removes_only_that_key 7 (store (queued [putNote; postNote] 3))))))))
            _).
  intros it Hit. cbn in Hit.
  apply elem_of_cons in Hit as [-> | Hit]; [cbn; lia |].
  apply list_elem_of_singleton in Hit as ->. cbn. lia.
Defined.

Lemma index_insert_snoc y x m :
  index_leb y x = true → index_insert y (m ++ [x]) = index_insert y m ++ [x].
Proof.
  intros Hyx. induction m as [| z m IH]; cbn.
  - by rewrite Hyx.
  - destruct (index_leb y z); [done |]. by rewrite IH.
Qed.

Lemma index_sort_snoc x l :
  Forall (λ y, index_leb y x = true) l → index_sort (l ++ [x]) = index_sort l ++ [x].
Proof.
  induction 1 as [| y l Hy _ IH]; [done |]. cbn. rewrite IH. by apply index_insert_snoc.
Qed.

(** X3. [addToOutbox] stores the record under the next key, which is
    larger than every queued key, with the given timestamp, or the clock
    reading when that is zero.  When no queued record is younger than the
    new one, [getOutbox] then lists the old records as before and the new
    one last. *)
Theorem addToOutbox_lists_last now (item : NewOutboxItem.t) s :
  outbox_wf s →
  Forall (λ it, OutboxItem.timestamp it ≤ num_or (NewOutboxItem.timestamp item) now) (outbox s) →
  let stored :=
    OutboxItem.mk (outboxKey s) (NewOutboxItem.url item) (NewOutboxItem.method item)
      (NewOutboxItem.payload item) (num_or (NewOutboxItem.timestamp item) now) in
  (addToOutbox now item s).2 = outboxKey s
  ∧ (∀ it, it ∈ outbox s → OutboxItem.id it < (addToOutbox now item s).2)
  ∧ getOutbox (addToOutbox now item s).1 = getOutbox s ++ [stored]
  ∧ outbox_wf (addToOutbox now item s).1.
Proof.
  intros Hwf Hts stored. split; [done |]. split; [| split].
  - intros it Hit. destruct Hwf as (_ & Hk & _). rewrite Forall_forall in Hk.
    specialize (Hk it Hit). cbn. lia.
  - unfold getOutbox. cbn. apply index_sort_snoc.
    destruct Hwf as (_ & Hk & _). rewrite Forall_forall in *. intros y Hy.
    specialize (Hk y Hy). specialize (Hts y Hy). apply index_leb_order.
    unfold indexOrder. subst stored. cbn. lia.
  - by apply addToOutbox_wf.
Qed.

(** A DELETE queued after the two notes, at a later time. *)
Lemma addToOutbox_lists_last_witness :
  getOutbox (addToOutbox 1005
               (NewOutboxItem.mk "/api/session-notes/2" "DELETE" emptyObject 0)
               (mkStore [putNote; postNote] 3 [] 1 ∅ ∅)).1
  = [putNote; postNote; deleteNote].
Proof.
  refine (proj1 (proj2 (proj2 (addToOutbox_lists_last 1005
            (NewOutboxItem.mk "/api/session-notes/2" "DELETE" emptyObject 0)
            (mkStore [putNote; postNote] 3 [] 1 ∅ ∅) _ _)))).
  - split; [| split]; cbn; [repeat constructor; cbn; lia | repeat constructor; cbn; lia | lia].
  - repeat constructor; cbn; lia.
Defined.

(** X4. The cache keeps one entry per key: a read returns the body of the
    last write under that key, writes under other keys do not disturb it,
    a cleared cache answers [null] for every key, and a cache write changes
    no other collection. *)
Theorem cache_returns_last_write now now' (key : string) (data data' : JsValue) s :
  getCached key (cacheGet now key data s) = data
  ∧ getCached key (cacheGet now' key data' (cacheGet now key data s)) = data'
  ∧ (∀ other d, other ≠ key →
       getCached key (cacheGet now' other d (cacheGet now key data s)) = data)
  ∧ (∀ k, getCached k (clearCache (cacheGet now key data s)) = JsNull)
  ∧ outbox (cacheGet now key data s) = outbox s
  ∧ syncConflicts (cacheGet now key data s) = syncConflicts s
  ∧ sessionNotes (cacheGet now key data s) = sessionNotes s.
Proof.
  unfold getCached, cacheGet, clearCache, withCache. cbn.
  split; [by rewrite lookup_insert_eq |]. split; [by rewrite lookup_insert_eq |].
  split; [| split; [| done]].
  - intros other d Hne. by rewrite lookup_insert_ne, lookup_insert_eq.
  - intros k. by rewrite lookup_empty.
Qed.

(** Two URLs cached one after the other. *)
Lemma cache_returns_last_write_witness :
  getCached "/a" (cacheGet 2 "/b" (JsNum 2) (cacheGet 1 "/a" (JsNum 1) emptyStore)) = JsNum 1.
Proof.
  refine (proj1 (proj2 (proj2 (cache_returns_last_write 1 2 "/a" (JsNum 1) JsNull emptyStore)))
            "/b" (JsNum 2) _).
  discriminate.
Defined.


(** A queue history with a removal between two additions. *)
Lemma outbox_keys_count_up_witness :
  (runOutboxOps
     [OpAdd 1000 (NewOutboxItem.mk "/api/session-notes/1" "PUT" emptyObject 0);
      OpRemove 1;
      OpAdd 1001 (NewOutboxItem.mk "/api/session-notes" "POST" emptyObject 0)]
     emptyStore).2
  = [1; 2].
Proof.
  exact (proj1 (outbox_keys_count_up
                  [OpAdd 1000 (NewOutboxItem.mk "/api/session-notes/1" "PUT" emptyObject 0);
                   OpRemove 1;
                   OpAdd 1001 (NewOutboxItem.mk "/api/session-notes" "POST" emptyObject 0)])).
Defined.

Lemma conflict_leb_total x y : conflict_leb x y = false → conflict_leb y x = true.
Proof.
  unfold conflict_leb.
  rewrite orb_false_iff, andb_false_iff, orb_true_iff, andb_true_iff,
    !Z.ltb_ge, !Z.ltb_lt, !Z.eqb_neq, !Z.eqb_eq, Z.leb_gt, Z.leb_le. lia.
Qed.

Lemma conflict_leb_trans x y z :
  conflict_leb x y = true → conflict_leb y z = true → conflict_leb x z = true.
Proof.
  unfold conflict_leb.
  rewrite !orb_true_iff, !andb_true_iff, !Z.ltb_lt, !Z.eqb_eq, !Z.leb_le. lia.
Qed.

(** X5. [getSyncConflicts] lists every conflict record once, by timestamp
    and then by key.  [removeSyncConflict] takes exactly the record with
    the given key out of that listing, keeps the order of the others and
    touches nothing else; doing it twice is the same as once.  A record
    added by [addToSyncConflicts] gets the next key and is listed. *)
Theorem conflict_log_listing now (id : Z) (item : NewSyncConflict.t) s :
  getSyncConflicts s ≡ₚ syncConflicts s
  ∧ StronglySorted (λ a b, conflict_leb a b = true) (getSyncConflicts s)
  ∧ getSyncConflicts (removeSyncConflict id s)
    = filter (λ c, SyncConflict.id c ≠ id) (getSyncConflicts s)
  ∧ removeSyncConflict id (removeSyncConflict id s) = removeSyncConflict id s
  ∧ outbox (removeSyncConflict id s) = outbox s
  ∧ cache (removeSyncConflict id s) = cache s
  ∧ sessionNotes (removeSyncConflict id s) = sessionNotes s
  ∧ (addToSyncConflicts now item s).2 = conflictsKey s
  ∧ SyncConflict.mk (conflictsKey s) (NewSyncConflict.url item) (NewSyncConflict.method item)
      (NewSyncConflict.payload item) (num_or (NewSyncConflict.timestamp item) now)
      (NewSyncConflict.error item)
    ∈ getSyncConflicts (addToSyncConflicts now item s).1.
Proof.
  split; [apply sortBy_perm |].
  split; [apply sortBy_sorted; [apply conflict_leb_total | apply conflict_leb_trans] |].
  split; [| repeat split].
  - unfold getSyncConflicts. cbn.
    apply sortBy_filter; [apply conflict_leb_total | apply conflict_leb_trans].
  - unfold removeSyncConflict, withConflicts. cbn. f_equal.
    rewrite list_filter_filter. apply list_filter_iff. tauto.
  - unfold getSyncConflicts. rewrite sortBy_perm. cbn. apply elem_of_app. right. by left.
Qed.

Lemma StronglySorted_weaken {A : Type} (R1 R2 : relation A) (l : list A) :
  (∀ a b, R1 a b → R2 a b) → StronglySorted R1 l → StronglySorted R2 l.
Proof.
  intros HR. induction 1 as [| x l _ IH Hx]; constructor; [done |].
  eapply Forall_impl; [exact Hx | auto].
Qed.

Lemma note_listing_elem s x :
  x ∈ getSessionNotes s ↔ ∃ k, sessionNotes s !! k = Some x.
Proof.
  unfold getSessionNotes, sortNotesByTimestamp. rewrite !sortBy_perm.
  rewrite list_elem_of_fmap. split.
  - intros ([k y] & -> & Hin). exists k. by apply elem_of_map_to_list.
  - intros (k & Hk). exists (k, x). split; [done |]. by apply elem_of_map_to_list.
Qed.

(** X6. The notes are listed newest first, each stored note once: the
    listing has as many notes as the store, a note is listed exactly when
    it is stored, and timestamps never increase along it.  The mock
    backend answers a read of the collection with status 200 and this
    listing. *)
Theorem session_notes_listed_newest_first s :
  api_status (handleGetSessionNotes s) = 200
  ∧ api_body (handleGetSessionNotes s) = NotesBody (getSessionNotes s)
  ∧ (∀ x, x ∈ getSessionNotes s ↔ ∃ k, sessionNotes s !! k = Some x)
  ∧ length (getSessionNotes s) = size (sessionNotes s)
  ∧ StronglySorted (λ a b, SessionNote.timestamp b ≤ SessionNote.timestamp a)
      (getSessionNotes s).
Proof.
  split; [done |]. split; [done |]. split; [apply note_listing_elem |]. split.
  - unfold getSessionNotes, sortNotesByTimestamp.
    rewrite !sortBy_perm, length_fmap. apply length_map_to_list.
  - unfold getSessionNotes, sortNotesByTimestamp.
    eapply StronglySorted_weaken; [| apply sortBy_sorted].
    + intros a b H. cbn in H. by apply Z.leb_le.
    + intros x y H. apply Z.leb_le. apply Z.leb_gt in H. lia.
    + intros x y z H1 H2. apply Z.leb_le. apply Z.leb_le in H1, H2. lia.
Qed.

(** A store with two notes: the younger one is listed first. *)
Lemma session_notes_listed_newest_first_witness :
  SessionNote.mk "2" "Jane" "later" 2000 "d" ∈
    getSessionNotes
      (updateSessionNote (SessionNote.mk "2" "Jane" "later" 2000 "d")
         (updateSessionNote (SessionNote.mk "1" "John" "first" 1000 "d") emptyStore)).
Proof.
  apply (proj1 (proj2 (proj2 (session_notes_listed_newest_first _)))).
  exists "2". vm_compute. reflexivity.
Defined.

(** X7. [addSessionNote] names the note after the clock: it fails exactly
    when a note is already stored under that name, so of two notes created
    at the same clock reading the second is rejected; otherwise it returns
    the name, lists the note, and leaves every other note and collection as
    they were.  A note created at another clock reading is not affected. *)
Theorem addSessionNote_names_by_clock now (note : NewSessionNote.t) s :
  (addSessionNote now note s = None ↔ is_Some (sessionNotes s !! pretty now))
  ∧ (∀ s' id, addSessionNote now note s = Some (s', id) →
       id = pretty now
       ∧ SessionNote.mk id (NewSessionNote.clientName note) (NewSessionNote.note note)
           (num_or (NewSessionNote.timestamp note) now) (NewSessionNote.shiftDate note)
         ∈ getSessionNotes s'
       ∧ (∀ k, k ≠ id → sessionNotes s' !! k = sessionNotes s !! k)
       ∧ outbox s' = outbox s ∧ syncConflicts s' = syncConflicts s ∧ cache s' = cache s
       ∧ (∀ note2, addSessionNote now note2 s' = None)
       ∧ (∀ now2 note2, now2 ≠ now →
            (addSessionNote now2 note2 s' = None ↔ addSessionNote now2 note2 s = None))).
Proof.
  assert (∀ n nt st, addSessionNote n nt st = None ↔ is_Some (sessionNotes st !! pretty n))
    as Hnone.
  { intros n nt st. unfold addSessionNote.
    destruct (sessionNotes st !! pretty n) as [x |].
    - split; [intros _; by exists x | done].
    - split; [done | by intros [? ?]]. }
  split; [apply Hnone |].
  intros s' id Hadd. unfold addSessionNote in Hadd.
  destruct (sessionNotes s !! pretty now) eqn:Hlook; [done |].
  injection Hadd as <- <-. cbn.
  split; [done |]. split; [| split; [| split; [| split; [| split; [| split]]]]]; try done.
  - apply note_listing_elem. exists (pretty now). cbn. by rewrite lookup_insert_eq.
  - intros k Hk. by rewrite lookup_insert_ne.
  - intros note2. apply Hnone. cbn. rewrite lookup_insert_eq. by eexists.
  - intros now2 note2 Hne. rewrite !Hnone. cbn.
    rewrite lookup_insert_ne; [done |]. intros Heq. apply Hne. symmetry.
    by apply (inj pretty).
Qed.

(** Two notes created in the same millisecond. *)
Lemma addSessionNote_names_by_clock_witness :
  addSessionNote 1000 (NewSessionNote.mk "Jane" "second" 0 "d")
    (withSessionNotes emptyStore
       (<["1000" := SessionNote.mk "1000" "John" "first" 1000 "d"]> ∅))
  = None.
Proof.
  apply (proj2 (proj1 (addSessionNote_names_by_clock 1000
                         (NewSessionNote.mk "Jane" "second" 0 "d")
                         (withSessionNotes emptyStore
                            (<["1000" := SessionNote.mk "1000" "John" "first" 1000 "d"]> ∅))))).
  by eexists.
Defined.

(** X8. [updateSessionNote] stores the note under its [id], replacing the
    note stored there or creating one; [deleteSessionNote] takes the note
    under the given [id] out of the listing and no other; deleting twice,
    or deleting an [id] that is not stored, changes nothing. *)
Theorem session_note_update_and_delete (note : SessionNote.t) (id : string) s :
  (∀ x, x ∈ getSessionNotes (updateSessionNote note s)
        ↔ x = note ∨ ∃ k, k ≠ SessionNote.id note ∧ sessionNotes s !! k = Some x)
  ∧ (∀ x, x ∈ getSessionNotes (deleteSessionNote id s)
          ↔ ∃ k, k ≠ id ∧ sessionNotes s !! k = Some x)
  ∧ deleteSessionNote id (deleteSessionNote id s) = deleteSessionNote id s
  ∧ (sessionNotes s !! id = None → deleteSessionNote id s = s)
  ∧ deleteSessionNote (SessionNote.id note) (updateSessionNote note s)
    = deleteSessionNote (SessionNote.id note) s.
Proof.
  split; [| split; [| split; [| split]]].
  - intros x. rewrite note_listing_elem. cbn. split.
    + intros (k & Hk). destruct (decide (k = SessionNote.id note)) as [-> | Hne].
      * rewrite lookup_insert_eq in Hk. left. congruence.
      * rewrite lookup_insert_ne in Hk by done. right. by exists k.
    + intros [-> | (k & Hne & Hk)].
      * exists (SessionNote.id note). by rewrite lookup_insert_eq.
      * exists k. by rewrite lookup_insert_ne.
  - intros x. rewrite note_listing_elem. cbn. split.
    + intros (k & Hk). destruct (decide (k = id)) as [-> | Hne].
      * by rewrite lookup_delete_eq in Hk.
      * rewrite lookup_delete_ne in Hk by done. by exists k.
    + intros (k & Hne & Hk). exists k. by rewrite lookup_delete_ne.
  - unfold deleteSessionNote, withSessionNotes. cbn. f_equal.
    apply map_eq. intros k. destruct (decide (k = id)) as [-> | Hne].
    + by rewrite !lookup_delete_eq.
    + by rewrite !lookup_delete_ne.
  - intros Hnone. unfold deleteSessionNote, withSessionNotes.
    rewrite delete_id by done. apply store_eta.
  - unfold deleteSessionNote, updateSessionNote, withSessionNotes. cbn. f_equal.
    apply map_eq. intros k. destruct (decide (k = SessionNote.id note)) as [-> | Hne].
    + by rewrite !lookup_delete_eq.
    + by rewrite !lookup_delete_ne, lookup_insert_ne.
Qed.

(** Deleting from a store without notes. *)
Lemma session_note_update_and_delete_witness :
  deleteSessionNote "7" emptyStore = emptyStore.
Proof.
  exact (proj1 (proj2 (proj2 (proj2
           (session_note_update_and_delete (SessionNote.mk "1" "" "" 0 "") "7" emptyStore))))
         eq_refl).
Defined.

End StoreExtras.

(* ===================================================================== *)
(** * The mock API: addressing a note by its URL *)
(* ===================================================================== *)

Section ApiFacts.

Lemma split_nonempty sep s : split sep s ≠ [].
Proof.
  destruct s as [| c s]; cbn [split]; [done |].
  destruct (Ascii.eqb c sep); [done |]. by destruct (split sep s).
Qed.

Lemma split_plain sep s : contains sep s = false → split sep s = [s].
Proof.
  induction s as [| c s IH]; cbn [contains split]; [done |].
  intros [Hc Hs]%orb_false_iff. rewrite Hc, IH by done. done.
Qed.

Lemma last_cons_nonempty {A : Type} (x : A) (l : list A) : l ≠ [] → last (x :: l) = last l.
Proof. by destruct l. Qed.

Lemma last_split_cons sep c s :
  last (split sep (String c s))
  = if Ascii.eqb c sep then last (split sep s)
    else match split sep s with
         | [seg] => Some (String c seg)
         | _ => last (split sep s)
         end.
Proof.
  cbn [split]. destruct (Ascii.eqb c sep).
  - apply last_cons_nonempty, split_nonempty.
  - pose proof (split_nonempty sep s). destruct (split sep s) as [| seg [| seg' segs]]; done.
Qed.

Lemma split_two sep pre seg :
  ∃ x y l, split sep (pre +:+ String sep seg) = x :: y :: l.
Proof.
  induction pre as [| a pre (x & y & l & IH)].
  - change ("" +:+ String sep seg) with (String sep seg). cbn [split].
    rewrite Ascii.eqb_refl. pose proof (split_nonempty sep seg).
    destruct (split sep seg) as [| y l]; [done |]. by eexists _, _, _.
  - change (String a pre +:+ String sep seg) with (String a (pre +:+ String sep seg)).
    cbn [split]. rewrite IH. destruct (Ascii.eqb a sep); by eexists _, _, _.
Qed.

(** The text after the last separator. *)
Lemma last_split_spec sep s :
  ∃ seg, last (split sep s) = Some seg
         ∧ contains sep seg = false
         ∧ (s = seg ∨ ∃ pre, s = pre +:+ String sep seg).
Proof.
  induction s as [| c s (seg & Hlast & Hno & Hs)].
  - exists "". cbn. split; [done |]. split; [done | by left].
  - rewrite last_split_cons. destruct (Ascii.eqb_spec c sep) as [-> | Hne].
    + exists seg. split; [done |]. split; [done |]. right.
      destruct Hs as [-> | (pre & ->)]; [by exists "" | by exists (String sep pre)].
    + destruct Hs as [-> | (pre & ->)].
      * rewrite split_plain by done. exists (String c seg).
        split; [done |]. split; [| by left].
        cbn [contains]. rewrite Hno. by destruct (Ascii.eqb_spec c sep).
      * destruct (split_two sep pre seg) as (x & y & l & Hsplit).
        rewrite Hsplit in *. exists seg. split; [done |]. split; [done |].
        right. by exists (String c pre).
Qed.

Lemma last_split_app sep pre seg :
  contains sep seg = false → last (split sep (pre +:+ String sep seg)) = Some seg.
Proof.
  intros Hno. induction pre as [| c pre IH].
  - change ("" +:+ String sep seg) with (String sep seg). cbn [split].
    rewrite Ascii.eqb_refl, split_plain by done. done.
  - change (String c pre +:+ String sep seg) with (String c (pre +:+ String sep seg)).
    rewrite last_split_cons. destruct (Ascii.eqb c sep); [done |].
    destruct (split_two sep pre seg) as (x & y & l & Hsplit). by rewrite Hsplit in *.
Qed.


Lemma String_prefix_app p s : String.prefix p s = true → ∃ rest, s = p +:+ rest.
Proof.
  revert s. induction p as [| a p IH]; intros s H.
  - by exists s.
  - destruct s as [| b s]; cbn in H; [done |].
    destruct (ascii_dec a b) as [-> | _]; [| done].
    destruct (IH s H) as (rest & ->). by exists rest.
Qed.

Lemma extractIdFromUrl_last url seg :
  last (split "/" url) = Some seg →
  extractIdFromUrl url = if String.eqb seg "" then None else Some seg.
Proof.
  intros H. unfold extractIdFromUrl, isValidId. rewrite H.
  by destruct (String.eqb seg "").
Qed.

Lemma extractIdFromUrl_some url id :
  extractIdFromUrl url = Some id →
  id ≠ "" ∧ contains "/" id = false ∧ (url = id ∨ ∃ pre, url = pre +:+ "/" +:+ id).
Proof.
  destruct (last_split_spec "/" url) as (seg & Hlast & Hno & Hurl).
  rewrite (extractIdFromUrl_last _ _ Hlast).
  destruct (String.eqb_spec seg "") as [| Hne]; [done |].
  intros [= <-]. split; [done |]. split; [done |].
  destruct Hurl as [-> | (pre & ->)]; [by left | right; by exists pre].
Qed.

Lemma extractIdFromUrl_none url :
  extractIdFromUrl url = None → url = "" ∨ ∃ pre, url = pre +:+ "/".
Proof.
  destruct (last_split_spec "/" url) as (seg & Hlast & Hno & Hurl).
  rewrite (extractIdFromUrl_last _ _ Hlast).
  destruct (String.eqb_spec seg "") as [-> | Hne]; [| done].
  intros _. destruct Hurl as [-> | (pre & ->)]; [by left | right; by exists pre].
Qed.

(** X9. [extractIdFromUrl] returns the text after the last slash of the
    URL (the whole URL when it has no slash), and nothing when that text is
    empty, that is, for the empty URL and for a URL that ends in a slash. *)
Theorem extractIdFromUrl_takes_last_segment (url : string) :
  (∀ id, extractIdFromUrl url = Some id
         ↔ id ≠ "" ∧ contains "/" id = false
           ∧ (url = id ∨ ∃ pre, url = pre +:+ "/" +:+ id))
  ∧ (extractIdFromUrl url = None ↔ url = "" ∨ ∃ pre, url = pre +:+ "/").
Proof.
  split.
  - intros id. split; [apply extractIdFromUrl_some |].
    intros (Hne & Hnoid & Hid).
    assert (last (split "/" url) = Some id) as Hlast.
    { destruct Hid as [-> | (pre & ->)]; [by rewrite split_plain |].
      by apply last_split_app. }
    rewrite (extractIdFromUrl_last _ _ Hlast).
    by destruct (String.eqb_spec id "").
  - split; [apply extractIdFromUrl_none |].
    intros Hend.
    assert (last (split "/" url) = Some "") as Hlast.
    { destruct Hend as [-> | (pre & ->)]; [done |]. by apply last_split_app. }
    by rewrite (extractIdFromUrl_last _ _ Hlast).
Qed.

(** The URL of one note. *)
Lemma extractIdFromUrl_takes_last_segment_witness :
  extractIdFromUrl "/api/session-notes/1" = Some "1".
Proof.
  apply (proj2 (proj1 (extractIdFromUrl_takes_last_segment "/api/session-notes/1") "1")).
  split; [discriminate |]. split; [reflexivity |]. right. by exists "/api/session-notes".
Defined.

(** X10. A DELETE under [/api/session-notes/] is answered by the note
    handler of the mock backend.  It answers 400 [Invalid ID] and changes
    nothing when the URL ends in a slash; otherwise it answers 200
    [{success: true}], whether or not a note was stored under the
    last segment of the URL, and afterwards no note is stored under that
    segment while every other note and collection is as before.  Sending
    the same request again gives the same answer and the same store. *)
Theorem api_delete_by_last_segment (req : HttpRequest) (s : Store) :
  apiRoute req = DeleteNote →
  req_method req = "DELETE"
  ∧ (∃ rest, req_url req = "/api/session-notes/" +:+ rest)
  ∧ match extractIdFromUrl (req_url req) with
    | None =>
        handleDeleteSessionNote req s = (s, mkApiResponse 400 (ErrorBody "Invalid ID"))
        ∧ ∃ pre, req_url req = pre +:+ "/"
    | Some id =>
        handleDeleteSessionNote req s = (deleteSessionNote id s, mkApiResponse 200 SuccessBody)
        ∧ (∃ pre, req_url req = pre +:+ "/" +:+ id)
        ∧ sessionNotes (handleDeleteSessionNote req s).1 !! id = None
        ∧ (∀ k, k ≠ id →
             sessionNotes (handleDeleteSessionNote req s).1 !! k = sessionNotes s !! k)
    end
  ∧ handleDeleteSessionNote req (handleDeleteSessionNote req s).1
    = handleDeleteSessionNote req s
  ∧ outbox (handleDeleteSessionNote req s).1 = outbox s
  ∧ syncConflicts (handleDeleteSessionNote req s).1 = syncConflicts s
  ∧ cache (handleDeleteSessionNote req s).1 = cache s.
Proof.
  intros Hroute. unfold apiRoute in Hroute.
  destruct (negb (isApiRequest (req_url req))); [done |].
  destruct (isGetSessionNotes req); [done |].
  destruct (isPostSessionNotes req); [done |].
  destruct (isPutSessionNote req); [done |].
  destruct (isDeleteSessionNote req) eqn:Hdel; [| done].
  unfold isDeleteSessionNote in Hdel. apply andb_true_iff in Hdel as [Hm Hp].
  apply String.eqb_eq in Hm. apply String_prefix_app in Hp as (rest & Hrest).
  split; [done |]. split; [by exists rest |].
  unfold handleDeleteSessionNote.
  destruct (extractIdFromUrl (req_url req)) as [id |] eqn:Hid.
  - destruct (extractIdFromUrl_some _ _ Hid) as (Hne & Hno & Hurl).
    cbn [fst]. try rewrite Hid.
    split; [| split; [| done]].
    + split; [done |]. split.
      * destruct Hurl as [Hurl | ?]; [| done]. exfalso.
        rewrite Hurl in Hrest. rewrite Hrest in Hno. done.
      * cbn. split; [by rewrite lookup_delete_eq |].
        intros k Hk. by rewrite lookup_delete_ne.
    + f_equal. unfold deleteSessionNote, withSessionNotes. cbn. f_equal.
      apply map_eq. intros k. destruct (decide (k = id)) as [-> | Hk].
      * by rewrite !lookup_delete_eq.
      * by rewrite !lookup_delete_ne.
  - cbn [fst]. try rewrite Hid. split; [| done]. split; [done |].
    destruct (extractIdFromUrl_none _ Hid) as [Hempty | ?]; [| done].
    rewrite Hempty in Hrest. done.
Qed.

(** Deleting note 1 twice. *)
Lemma api_delete_by_last_segment_witness :
  handleDeleteSessionNote (mkRequest "DELETE" "/api/session-notes/1" JsNull)
    (handleDeleteSessionNote (mkRequest "DELETE" "/api/session-notes/1" JsNull) emptyStore).1
  = handleDeleteSessionNote (mkRequest "DELETE" "/api/session-notes/1" JsNull) emptyStore.
Proof.
  exact (proj1 (proj2 (proj2 (proj2
           (api_delete_by_last_segment (mkRequest "DELETE" "/api/session-notes/1" JsNull)
              emptyStore eq_refl))))).
Defined.

End ApiFacts.

(* ===================================================================== *)
(** * The request router: further properties *)
(* ===================================================================== *)

Section RouterExtras.

Implicit Types (req : HttpRequest) (next : HttpHandler) (s : Store) (now : Z).

Lemma cacheOnEvent_frame now url s events :
  outbox (fold_left (cacheOnEvent now url) events s) = outbox s
  ∧ outboxKey (fold_left (cacheOnEvent now url) events s) = outboxKey s
  ∧ syncConflicts (fold_left (cacheOnEvent now url) events s) = syncConflicts s
  ∧ conflictsKey (fold_left (cacheOnEvent now url) events s) = conflictsKey s
  ∧ sessionNotes (fold_left (cacheOnEvent now url) events s) = sessionNotes s.
Proof.
  revert s. induction events as [| ev events IH]; intros s; [done |].
  cbn [fold_left]. destruct (IH (cacheOnEvent now url s ev)) as (-> & -> & -> & -> & ->).
  destruct ev as [| | r]; cbn; try done. by destruct (status r =? HTTP_STATUS.OK).
Qed.

(** X11. The decision table of the router.  It never touches the conflict
    log or the domain records, and changes the queue only for an offline
    mutation.  A request is kept from the network exactly when the device
    is offline and the method is GET, POST, PUT or DELETE; every other
    request goes to the next handler: an online mutation with no local
    bookkeeping at all, and a request with any other method also while
    offline. *)
Theorem router_decision_table (isOnline : bool) now req next s :
  let r := intercept isOnline now req next s in
  syncConflicts (store_after r) = syncConflicts s
  ∧ conflictsKey (store_after r) = conflictsKey s
  ∧ sessionNotes (store_after r) = sessionNotes s
  ∧ (outbox (store_after r) ≠ outbox s →
       isOnline = false ∧ isMutationMethod (req_method req) = true)
  ∧ (forwarded r = []
     ↔ isOnline = false
       ∧ isMutationMethod (req_method req) || isGetMethod (req_method req) = true)
  ∧ (forwarded r ≠ [] → forwarded r = [req] ∧ returned r = next req)
  ∧ (isOnline = true → isMutationMethod (req_method req) = true → store_after r = s)
  ∧ (isMutationMethod (req_method req) = false → isGetMethod (req_method req) = false →
       store_after r = s ∧ returned r = next req ∧ forwarded r = [req]).
Proof.
  intros r. subst r. unfold intercept.
  destruct isOnline; cbn [negb andb].
  - destruct (isGetMethod (req_method req)) eqn:Hg.
    + unfold handleOnlineGet. cbn.
      destruct (cacheOnEvent_frame now (req_url req) s (emitted (next req)))
        as (Ho & _ & Hc & Hk & Hn).
      rewrite Ho, Hc, Hk, Hn. split_and!; try done.
      * split; [done | by intros [? _]].
      * intros _. split; [done | by destruct (next req)].
      * intros _ Hm. apply mutation_is_not_get in Hm. congruence.
    + cbn. split_and!; try done. split; [done | by intros [? _]].
  - destruct (isMutationMethod (req_method req)) eqn:Hm.
    + unfold handleOfflineMutation, addToOutbox. cbn. split_and!; try done.
    + destruct (isGetMethod (req_method req)) eqn:Hg.
      * unfold handleOfflineGet. destruct (truthy _); cbn; split_and!; try done.
      * cbn. split_and!; try done. split; [done | by intros [_ ?]].
Qed.

(** An offline PATCH goes to the network all the same. *)
Lemma router_decision_table_witness :
  forwarded (intercept false 1000 (mkRequest "PATCH" "/api/session-notes/1" JsNull)
               noNetwork emptyStore)
  = [mkRequest "PATCH" "/api/session-notes/1" JsNull].
Proof.
  exact (proj2 (proj2
           (proj2 (proj2 (proj2 (proj2 (proj2 (proj2 (proj2
              (router_decision_table false 1000
                 (mkRequest "PATCH" "/api/session-notes/1" JsNull) noNetwork emptyStore)))))))
              eq_refl eq_refl))).
Defined.

(** X12. Cache round trip: when an online GET ends with a status-200
    response whose body is truthy, a GET of the same URL made offline
    afterwards is answered from the cache, with status 200, the status text
    [OK (Cached)] and that body, without reaching the network and without
    changing the store. *)
Theorem cache_round_trip now now' req req' next next' s events (resp : HttpResponse) :
  isGetMethod (req_method req) = true →
  isGetMethod (req_method req') = true →
  req_url req' = req_url req →
  emitted (next req) = events ++ [EvResponse resp] →
  status resp = 200 →
  truthy (body resp) = true →
  let s1 := store_after (intercept true now req next s) in
  intercept false now' req' next' s1
  = mkRouted s1 (fromResolved (mkResponse 200 "OK (Cached)" (body resp))) [].
Proof.
  intros Hg Hg' Hurl Hev Hst Ht s1.
  apply (offline_get_hit now' req' next' s1 (CacheItem.mk (req_url req) (body resp) now));
    [done | | done].
  subst s1. unfold intercept. cbn [negb andb]. rewrite Hg. cbn.
  rewrite Hurl, Hev, fold_left_app. cbn.
  apply Z.eqb_eq in Hst. unfold HTTP_STATUS.OK. rewrite Hst. cbn.
  by rewrite lookup_insert_eq.
Qed.

(** The list of notes read online, then offline. *)
Lemma cache_round_trip_witness :
  returned
    (intercept false 2000 (mkRequest "GET" "/api/session-notes" JsNull) noNetwork
       (store_after (intercept true 1000 (mkRequest "GET" "/api/session-notes" JsNull)
                       (replies 200 (JsArr [])) emptyStore)))
  = fromResolved (mkResponse 200 "OK (Cached)" (JsArr [])).
Proof.
  exact (f_equal returned
           (cache_round_trip 1000 2000 (mkRequest "GET" "/api/session-notes" JsNull)
              (mkRequest "GET" "/api/session-notes" JsNull) (replies 200 (JsArr [])) noNetwork
              emptyStore [] (mkResponse 200 "" (JsArr []))
              eq_refl eq_refl eq_refl eq_refl eq_refl eq_refl)).
Defined.

End RouterExtras.

(* ===================================================================== *)
(** * The orchestrator: what it leaves alone *)
(* ===================================================================== *)

Section SyncExtras.

Implicit Types (remote : Remote) (w : World).

Lemma frame_refl w : orchestratorFrame w w.
Proof. unfold orchestratorFrame. by split_and!. Qed.

Lemma frame_trans w1 w2 w3 :
  orchestratorFrame w1 w2 → orchestratorFrame w2 w3 → orchestratorFrame w1 w3.
Proof.
  unfold orchestratorFrame.
  intros (? & ? & ? & ? & ? & ? & ? & ?) (? & ? & ? & ? & ? & ? & ? & ?).
  split_and!; try congruence; by etrans.
Qed.

Lemma processItem_frame item rest w : orchestratorFrame w (processItem item rest w).1.
Proof.
  unfold processItem. destruct (hasValidItemId item); [| apply frame_refl].
  destruct (createHttpRequest item); [| apply frame_refl].
  unfold orchestratorFrame. cbn. split_and!; try done. by apply prefix_app_r.
Qed.

Lemma subscribeNext_frame rest w : orchestratorFrame w (subscribeNext rest w).1.
Proof. destruct rest; [apply frame_refl | apply processItem_frame]. Qed.

Lemma updateStatus_frame st w : orchestratorFrame w (updateStatus st w).
Proof. unfold orchestratorFrame. cbn. split_and!; try done. by apply prefix_app_r. Qed.

Lemma logNet_frame e w : orchestratorFrame w (logNet w e).
Proof. unfold orchestratorFrame. cbn. split_and!; try done. by apply prefix_app_r. Qed.

Lemma removeFromOutbox_frame id w :
  orchestratorFrame w (withStore w (removeFromOutbox id (store w))).
Proof. unfold orchestratorFrame. cbn. split_and!; try done. apply sublist_filter. Qed.

Lemma addToSyncConflicts_frame now item w :
  orchestratorFrame w (withStore w (addToSyncConflicts now item (store w)).1).
Proof. unfold orchestratorFrame. cbn. split_and!; try done. by apply prefix_app_r. Qed.

Lemma step_frame remote now t w : orchestratorFrame w (step remote now t w).1.
Proof.
  destruct t; cbn [step].
  - destruct (shouldSkipSync w); apply frame_refl.
  - destruct (_ =? _)%nat; [apply frame_refl |].
    eapply frame_trans; [apply updateStatus_frame | apply subscribeNext_frame].
  - destruct (remote item) as [b | e].
    + match goal with |- context [subscribeNext rest ?w'] =>
        pose proof (subscribeNext_frame rest w') as Hn; destruct (subscribeNext rest w') end.
      cbn [fst] in *.
      eapply frame_trans; [apply logNet_frame |].
      eapply frame_trans; [apply updateStatus_frame | exact Hn].
    + destruct (isClientError _); cbn [fst].
      * apply logNet_frame.
      * eapply frame_trans; [apply logNet_frame | apply updateStatus_frame].
  - apply removeFromOutbox_frame.
  - destruct (hasValidItemId item); cbn [fst].
    + apply addToSyncConflicts_frame.
    + eapply frame_trans; [apply addToSyncConflicts_frame |].
      eapply frame_trans; [apply updateStatus_frame | apply subscribeNext_frame].
  - eapply frame_trans; [apply removeFromOutbox_frame |].
    eapply frame_trans; [apply updateStatus_frame | apply subscribeNext_frame].
  - apply updateStatus_frame.
Qed.

Lemma exec_frame remote sched (c : Config World Task) :
  orchestratorFrame (world c) (world (exec (step remote) sched c)).
Proof.
  apply (exec_invariant (step remote) (λ c', orchestratorFrame (world c) (world c')));
    [| apply frame_refl].
  intros c' i now t Hc _. cbn. eapply frame_trans; [exact Hc | apply step_frame].
Qed.

(** X13. Whatever is pending and however it is scheduled, the orchestrator
    never changes the connectivity flag, the cache, the domain records or
    the key generator of the queue; it only takes records out of the queue
    (those left keep their order), only appends to the conflict log, and
    only appends to what it has published and sent. *)
Theorem orchestrator_frame remote sched (c : Config World Task) :
  let w := world c in
  let w' := world (exec (step remote) sched c) in
  isOnline w' = isOnline w
  ∧ cache (store w') = cache (store w)
  ∧ sessionNotes (store w') = sessionNotes (store w)
  ∧ outboxKey (store w') = outboxKey (store w)
  ∧ outbox (store w') `sublist_of` outbox (store w)
  ∧ syncConflicts (store w) `prefix_of` syncConflicts (store w')
  ∧ published w `prefix_of` published w'
  ∧ network w `prefix_of` network w'.
Proof. apply exec_frame. Qed.

(** X14. Calls of [sync()] on an empty queue do nothing at all: under
    every schedule the world stays as it was, nothing is published and
    nothing is sent, and the calls come to rest. *)
Theorem sync_of_empty_queue_is_noop remote (w0 : World) (calls : nat) sched :
  outbox (store w0) = [] →
  world (exec (step remote) sched (mkConfig w0 (replicate calls CallSync))) = w0
  ∧ ∃ n, pool (exec (step remote) (oldestFirst n) (mkConfig w0 (replicate calls CallSync))) = [].
Proof.
  intros Hempty. split; [| eexists; apply drain_terminates].
  pose (I := λ c : Config World Task,
          world c = w0 ∧ Forall (λ t, t = CallSync ∨ t = AwaitGetOutbox) (pool c)).
  assert (I (exec (step remote) sched (mkConfig w0 (replicate calls CallSync)))) as [? _];
    [| done].
  apply exec_invariant.
  - intros [w tasks] i now t [Hw Hpool] Hi. cbn [world pool] in *. subst w.
    assert (t = CallSync ∨ t = AwaitGetOutbox) as [-> | ->].
    { rewrite Forall_forall in Hpool. apply Hpool. by eapply list_elem_of_lookup_2. }
    + cbn [step]. destruct (shouldSkipSync w0); cbn; (split; [done |]).
      * rewrite app_nil_r. by apply Forall_delete.
      * apply Forall_app. split; [by apply Forall_delete | repeat constructor; by right].
    + cbn [step]. unfold getOutbox. rewrite Hempty. cbn. split; [done |].
      rewrite app_nil_r. by apply Forall_delete.
  - split; [done |]. cbn. apply Forall_replicate. by left.
Qed.

(** Two calls on an empty queue. *)
Lemma sync_of_empty_queue_is_noop_witness :
  world (exec (step accepts) (oldestFirst 4) (mkConfig (queued [] 1) [CallSync; CallSync]))
  = queued [] 1.
Proof.
  exact (proj1 (sync_of_empty_queue_is_noop accepts (queued [] 1) 2 (oldestFirst 4) eq_refl)).
Defined.

Lemma bystanders_keep_syncing remote sched (w : World) tasks :
  isSyncing (currentStatus w) = true →
  Forall (λ t, isBystander t = true) tasks →
  let c := exec (step remote) sched (mkConfig w tasks) in
  currentStatus (world c) = currentStatus w
  ∧ published (world c) = published w
  ∧ network (world c) = network w
  ∧ Forall (λ t, isBystander t = true) (pool c).
Proof.
  intros Hs Htasks c. subst c.
  apply (exec_invariant (step remote)
           (λ c, currentStatus (world c) = currentStatus w
                 ∧ published (world c) = published w
                 ∧ network (world c) = network w
                 ∧ Forall (λ t, isBystander t = true) (pool c))); [| done].
  intros [w1 ts] i now t (Hst & Hp & Hn & Hpool) Hi. cbn [world pool] in *.
  assert (isBystander t = true) as Ht.
  { rewrite Forall_forall in Hpool. apply Hpool. by eapply list_elem_of_lookup_2. }
  destruct t; try discriminate; cbn [step].
  - unfold shouldSkipSync. rewrite Hst, Hs. cbn. split_and!; try done.
    rewrite app_nil_r. by apply Forall_delete.
  - cbn. split_and!; try done. rewrite app_nil_r. by apply Forall_delete.
Qed.

(** X15. A queued record that [processItem] refuses (its key is 0, or its
    method is not POST, PUT or DELETE) ends the drain where it is reached:
    nothing is sent or published for it, later records are not looked at,
    and [isSyncing] is left set.  From then on no call of [sync()] and no
    pending removal ever publishes a status, sends a request or clears the
    flag, so no drain runs again. *)
Theorem refused_item_leaves_sync_stuck remote (w : World) (bad : OutboxItem.t)
    (rest : list OutboxItem.t) (calls : nat) (removals : list OutboxItem.t) sched :
  hasValidItemId bad = false ∨ createHttpRequest bad = None →
  isSyncing (currentStatus w) = true →
  subscribeNext (bad :: rest) w = (w, [])
  ∧ let c := exec (step remote) sched
               (mkConfig w ((AwaitRemoveReplayed <$> removals) ++ replicate calls CallSync)) in
    isSyncing (currentStatus (world c)) = true
    ∧ published (world c) = published w
    ∧ network (world c) = network w
    ∧ activeDrains c = 0%nat.
Proof.
  intros Hbad Hs. split.
  - cbn. unfold processItem. destruct Hbad as [-> | Hreq]; [done |].
    rewrite Hreq. by destruct (hasValidItemId bad).
  - intros c.
    destruct (bystanders_keep_syncing remote sched w
                ((AwaitRemoveReplayed <$> removals) ++ replicate calls CallSync) Hs)
      as (Hst & Hp & Hn & Hpool).
    { apply Forall_app. split; [| by apply Forall_replicate].
      apply Forall_fmap. by apply Forall_true. }
    fold c in Hst, Hp, Hn, Hpool. rewrite Hst. split_and!; try done.
    unfold activeDrains. clear -Hpool.
    induction Hpool as [| t ts Ht _ IH]; [done |].
    rewrite filter_cons_False; [done |]. destruct t; cbn in *; congruence.
Qed.

(** A queued PATCH, reached while two further calls of [sync()] wait. *)
Lemma refused_item_leaves_sync_stuck_witness :
  isSyncing (currentStatus (world (exec (step accepts) (oldestFirst 5)
     (mkConfig (mkWorld emptyStore true (mkStatus true 2 1 0) [] [])
        ((AwaitRemoveReplayed <$> [putNote]) ++ replicate 2 CallSync))))) = true.
Proof.
  exact (proj1 (proj2 (refused_item_leaves_sync_stuck accepts
                         (mkWorld emptyStore true (mkStatus true 2 1 0) [] [])
                         (OutboxItem.mk 2 "/api/session-notes/1" "PATCH" emptyObject 1000)
                         [] 2 [putNote] (oldestFirst 5) (or_intror eq_refl) eq_refl))).
Defined.

End SyncExtras.

(* ===================================================================== *)
(** * The orchestrator: further properties of a drain *)
(* ===================================================================== *)

Section DrainExtras.

Implicit Types (remote : Remote) (w : World).

Lemma conflictsFor_length remote l : (length (conflictsFor remote l) ≤ length l)%nat.
Proof.
  induction l as [| x l IH]; cbn; [done |].
  destruct (remote x) as [| e]; [lia |]. destruct (isClientError _); cbn; lia.
Qed.

Lemma conflictsFor_replied remote l :
  (∀ it, ∃ b, remote it = Replied b) → conflictsFor remote l = [].
Proof.
  intros Hok. induction l as [| x l IH]; [done |]. cbn. by destruct (Hok x) as [b ->].
Qed.

Lemma prefixes_length {A : Type} (l p : list A) : p ∈ prefixes l → (length p ≤ length l)%nat.
Proof.
  revert p. induction l as [| x l IH]; intros p Hp; cbn in Hp.
  - apply list_elem_of_singleton in Hp as ->. done.
  - apply elem_of_cons in Hp as [-> | Hp]; [cbn; lia |].
    apply list_elem_of_fmap in Hp as (q & -> & Hq). specialize (IH q Hq). cbn. lia.
Qed.

Lemma statusAfter_in_range remote n p :
  (length p ≤ Z.to_nat n)%nat → 0 ≤ n → statusInRange (statusAfter remote n p).
Proof.
  intros Hp Hn. unfold statusInRange, statusAfter. cbn.
  pose proof (conflictsFor_length remote p). lia.
Qed.

Lemma statuses_in_range remote w0 done more :
  snapshot w0 = done ++ more → Forall statusInRange (statuses remote w0 done).
Proof.
  intros Hsnap. unfold statuses. apply Forall_fmap, Forall_forall. intros p Hp. cbn.
  apply prefixes_length in Hp. apply statusAfter_in_range; unfold total; [| lia].
  rewrite Hsnap, length_app. lia.
Qed.

Lemma phase_published remote w0 w mains done :
  Phase remote w0 w mains done →
  ∃ pubs, published w = published w0 ++ pubs ∧ Forall statusInRange pubs.
Proof.
  destruct 1 as
    [? Hsh | Hsh | done item rest added Hsnap Hcont Hsh
     | done item error rest added Hsnap Hcont ? ? Hsh
     | done item error rest added Hsnap Hcont ? ? Hsh
     | added Hcont Hsh | added Hcont Hsh | ? Hsh
     | done item error rest added Hsnap Hcont ? ? Hsh];
    destruct Hsh as (Hp & _); eexists; (split; [exact Hp |]).
  - constructor.
  - constructor.
  - by eapply statuses_in_range.
  - by eapply statuses_in_range.
  - by eapply statuses_in_range.
  - apply (statuses_in_range remote w0 _ []). by rewrite app_nil_r.
  - apply Forall_app. split.
    + apply (statuses_in_range remote w0 _ []). by rewrite app_nil_r.
    + repeat constructor; cbn; lia.
  - constructor.
  - apply Forall_app. split; [by eapply statuses_in_range |].
    repeat constructor; cbn; pose proof (conflictsFor_length remote done); unfold total;
      rewrite ?Hsnap, ?length_app; lia.
Qed.

(** X16. Every status a drain publishes is in range: under every schedule,
    at every moment, each published value has
    [0 <= failedItems <= completedItems <= totalItems]. *)
Theorem published_statuses_in_range remote (w0 : World) sched :
  isOnline w0 = true →
  isSyncing (currentStatus w0) = false →
  outbox_wf (store w0) →
  pendingMutations (outbox (store w0)) →
  ∃ pubs,
    published (world (exec (step remote) sched (mkConfig w0 [CallSync])))
    = published w0 ++ pubs
    ∧ Forall statusInRange pubs.
Proof.
  intros Hon Hidle Hwf Hmut.
  destruct (drain_reachable remote w0 Hon Hidle Hwf Hmut sched)
    as (mains & pend & removed & done & _ & _ & _ & Hph).
  by eapply phase_published.
Qed.

(** A drain of three records, one of them rejected. *)
Lemma published_statuses_in_range_witness :
  ∃ pubs,
    published (world (exec (step (rejects 1 404)) (oldestFirst 12)
                        (mkConfig (queued [putNote; postNote; deleteNote] 4) [CallSync])))
    = [] ++ pubs
    ∧ Forall statusInRange pubs.
Proof.
  exact (published_statuses_in_range (rejects 1 404)
           (queued [putNote; postNote; deleteNote] 4) (oldestFirst 12)
           eq_refl eq_refl queued_notes_wf queued_notes_pending).
Defined.

Lemma filter_none {A : Type} (P : A → Prop) `{∀ x, Decision (P x)} (l : list A) :
  (∀ x, x ∈ l → ¬ P x) → filter P l = [].
Proof.
  induction l as [| x l IH]; intros Hall; [done |].
  rewrite filter_cons_False by (apply Hall; by left).
  apply IH. intros y Hy. apply Hall. by right.
Qed.

Lemma filter_ext_in {A : Type} (P Q : A → Prop) `{∀ x, Decision (P x)} `{∀ x, Decision (Q x)}
    (l : list A) :
  (∀ x, x ∈ l → P x ↔ Q x) → filter P l = filter Q l.
Proof.
  induction l as [| x l IH]; intros Hall; [done |].
  rewrite !filter_cons.
  assert (P x ↔ Q x) as Hx by (apply Hall; by left).
  rewrite IH by (intros y Hy; apply Hall; by right).
  destruct (decide (P x)), (decide (Q x)); tauto.
Qed.

(** Keys identify the records of a snapshot, so a record's key is among
    the keys taken out exactly when the record itself is taken out. *)
Lemma not_dequeuedKeys remote (l : list OutboxItem.t) x :
  NoDup (OutboxItem.id <$> l) → x ∈ l →
  OutboxItem.id x ∉ dequeuedKeys remote l ↔ dequeued remote x = false.
Proof.
  intros Hnd Hx. unfold dequeuedKeys. split.
  - intros Hnot. destruct (dequeued remote x) eqn:Hd; [| done].
    exfalso. apply Hnot. apply list_elem_of_fmap_2. by apply list_elem_of_filter.
  - intros Hd (y & Hid & Hy)%list_elem_of_fmap.
    apply list_elem_of_filter in Hy as [Hdy Hy].
    assert (x = y) as -> by (by eapply (same_key_same_item l)).
    congruence.
Qed.

Lemma filter_keeps_unacknowledged remote (done tail : list OutboxItem.t) :
  NoDup (OutboxItem.id <$> (done ++ tail)) →
  filter (λ it, OutboxItem.id it ∉ dequeuedKeys remote done) (done ++ tail)
  = filter (λ it, dequeued remote it = false) done ++ tail.
Proof.
  intros Hnd. rewrite fmap_app in Hnd. apply NoDup_app in Hnd as (Hdone & Hdisj & _).
  rewrite filter_app. f_equal.
  - apply filter_ext_in. intros x Hx. by apply not_dequeuedKeys.
  - apply filter_all. intros x Hx Hin%dequeuedKeys_subset.
    apply (Hdisj _ Hin). by apply list_elem_of_fmap_2.
Qed.

(** X17. After a drain that meets no network or server error the queue
    holds exactly the records whose call was answered with a [null] or
    [undefined] response, in their order: the handler of a successful call
    throws on such a response before it removes the record.  Every other
    record of the snapshot is gone (replayed ones removed, rejected ones
    moved to the conflict log), so the queue is empty when every answer
    carried a body; the status is the idle one, and when no call is rejected
    the conflict log is as it was before. *)
Theorem clean_drain_keeps_only_empty_replies remote (w0 : World) sched :
  isOnline w0 = true →
  isSyncing (currentStatus w0) = false →
  outbox_wf (store w0) →
  pendingMutations (outbox (store w0)) →
  Forall (λ it, continuing remote it = true) (outbox (store w0)) →
  pool (exec (step remote) sched (mkConfig w0 [CallSync])) = [] →
  let w := world (exec (step remote) sched (mkConfig w0 [CallSync])) in
  outbox (store w) = filter (λ it, dequeued remote it = false) (outbox (store w0))
  ∧ (Forall (λ it, dequeued remote it = true) (outbox (store w0)) → outbox (store w) = [])
  ∧ (outbox (store w0) ≠ [] → currentStatus w = idleStatus)
  ∧ ((∀ it, ∃ b, remote it = Replied b) →
       syncConflicts (store w) = syncConflicts (store w0)).
Proof.
  intros Hon Hidle Hwf Hmut Hcont Hrest w. subst w.
  assert (Forall (λ it, continuing remote it = true) (snapshot w0)) as Hcont'.
  { by rewrite (snapshot_perm w0). }
  destruct (handled_all remote _ Hcont') as [Hh Hn].
  destruct (drain_at_rest remote w0 Hon Hidle Hwf Hmut sched Hrest) as [Hph Hout].
  destruct (phase_final _ _ _ _ Hph) as (_ & (added & Hc & Hadd) & _ & Hst).
  assert (outbox (store (world (exec (step remote) sched (mkConfig w0 [CallSync]))))
          = filter (λ it, dequeued remote it = false) (outbox (store w0))) as Hkept.
  { rewrite Hout, Hh. apply filter_ext_in. intros x Hx.
    apply not_dequeuedKeys; [by apply snapshot_NoDup | by rewrite (snapshot_perm w0)]. }
  split; [done |]. split; [| split].
  - intros Hall. rewrite Hkept. apply filter_none. intros x Hx.
    rewrite Forall_forall in Hall. rewrite (Hall x Hx). discriminate.
  - intros Hne. destruct Hst as [_ Hst].
    + intros Hnil. apply Hne. apply Permutation_nil_r. by rewrite <- (snapshot_perm w0), Hnil.
    + rewrite Hst. unfold finalStatus. by rewrite Hn.
  - intros Hok. rewrite Hc. rewrite (conflictsFor_replied remote _ Hok) in Hadd.
    apply Forall2_nil_inv_l in Hadd as ->. by rewrite app_nil_r.
Qed.

(** Three queued mutations, all answered without a body: none leaves the
    queue. *)
Lemma clean_drain_keeps_only_empty_replies_witness :
  outbox (store (world (exec (step acceptsEmpty) (oldestFirst 12)
                          (mkConfig (queued [putNote; postNote; deleteNote] 4) [CallSync]))))
  = [putNote; postNote; deleteNote].
Proof.
  refine (proj1 (clean_drain_keeps_only_empty_replies acceptsEmpty
                   (queued [putNote; postNote; deleteNote] 4) (oldestFirst 12)
                   eq_refl eq_refl queued_notes_wf queued_notes_pending _ _)).
  - repeat constructor.
  - vm_compute. reflexivity.
Defined.

Lemma outbox_wf_filter (P : OutboxItem.t → Prop) `{∀ x, Decision (P x)} (s s' : Store) :
  outbox_wf s → outbox s' = filter P (outbox s) → outboxKey s' = outboxKey s → outbox_wf s'.
Proof.
  intros (Hs & Hk & H0) Ho Hkey. unfold outbox_wf. rewrite Ho, Hkey.
  split; [| split; [by apply Forall_filter_keeps | done]].
  clear Hk Ho. induction Hs as [| x l Hs IH Hx]; [constructor |].
  rewrite filter_cons. destruct (decide _); [| done].
  constructor; [done |]. by apply Forall_filter_keeps.
Qed.

(** X18. A drain halted by a network or server error can be resumed: once
    nothing is pending, the device is still online, [isSyncing] is
    cleared, the queue is well formed and holds mutations only, and its
    listing is the earlier items that were answered with a [null] or
    [undefined] response, then the failed item, then the items after it.
    When every earlier answer carried a body, the next call of [sync()]
    starts with the failed item. *)
Theorem halted_drain_can_be_resumed remote (w0 : World)
    (done : list OutboxItem.t) (item : OutboxItem.t) (rest : list OutboxItem.t)
    (error : HttpErrorResponse) sched :
  isOnline w0 = true →
  isSyncing (currentStatus w0) = false →
  outbox_wf (store w0) →
  pendingMutations (outbox (store w0)) →
  getOutbox (store w0) = done ++ item :: rest →
  Forall (λ it, continuing remote it = true) done →
  remote item = Failed error →
  isClientError (err_status error) = false →
  pool (exec (step remote) sched (mkConfig w0 [CallSync])) = [] →
  let w := world (exec (step remote) sched (mkConfig w0 [CallSync])) in
  isOnline w = true
  ∧ isSyncing (currentStatus w) = false
  ∧ outbox_wf (store w)
  ∧ pendingMutations (outbox (store w))
  ∧ getOutbox (store w) = filter (λ it, dequeued remote it = false) done ++ item :: rest
  ∧ (Forall (λ it, dequeued remote it = true) done → getOutbox (store w) = item :: rest)
  ∧ shouldSkipSync w = false.
Proof.
  intros Hon Hidle Hwf Hmut Hsnap Hcont Hrem Hcl Hrest w. subst w.
  fold (snapshot w0) in Hsnap.
  assert (continuing remote item = false) as Hhalt by (unfold continuing; by rewrite Hrem).
  destruct (handled_halt remote done item rest Hcont Hhalt) as [Hh Hn].
  rewrite <- Hsnap in Hh, Hn.
  destruct (drain_at_rest remote w0 Hon Hidle Hwf Hmut sched Hrest) as [Hph Hout].
  destruct (phase_final _ _ _ _ Hph) as (_ & _ & _ & Hst).
  destruct Hst as [_ Hst]; [rewrite Hsnap; by destruct done |].
  destruct (exec_frame remote sched (mkConfig w0 [CallSync])) as (Hon' & _ & _ & Hkey & _).
  cbn [world] in Hon', Hkey.
  assert (isSyncing (currentStatus (world (exec (step remote) sched (mkConfig w0 [CallSync]))))
          = false) as Hs.
  { rewrite Hst. unfold finalStatus. by rewrite Hn. }
  assert (getOutbox (store (world (exec (step remote) sched (mkConfig w0 [CallSync]))))
          = filter (λ it, dequeued remote it = false) done ++ item :: rest) as Hlist.
  { unfold getOutbox. rewrite Hout, index_sort_filter. fold (getOutbox (store w0)).
    fold (snapshot w0). rewrite Hh, Hsnap. apply filter_keeps_unacknowledged.
    rewrite <- Hsnap. by apply snapshot_NoDup. }
  split_and!.
  - by rewrite Hon'.
  - done.
  - by eapply outbox_wf_filter.
  - rewrite Hout. by apply Forall_filter_keeps.
  - done.
  - intros Hall. rewrite Hlist. rewrite filter_none; [done |].
    intros x Hx. rewrite Forall_forall in Hall. rewrite (Hall x Hx). discriminate.
  - unfold shouldSkipSync. by rewrite Hs, Hon', Hon.
Qed.

(** The second of three calls fails with status 503, the first was
    answered with a body. *)
Lemma halted_drain_can_be_resumed_witness :
  getOutbox (store (world (exec (step (rejects 2 503)) (oldestFirst 12)
                             (mkConfig (queued [putNote; postNote; deleteNote] 4) [CallSync]))))
  = [postNote; deleteNote].
Proof.
  refine (proj1 (proj2 (proj2 (proj2 (proj2
           (halted_drain_can_be_resumed (rejects 2 503)
              (queued [putNote; postNote; deleteNote] 4)
              [putNote] postNote [deleteNote] (mkError 503 "") (oldestFirst 12)
              eq_refl eq_refl queued_notes_wf queued_notes_pending
              eq_refl _ eq_refl eq_refl _)))))).
  - repeat constructor.
  - vm_compute. reflexivity.
Defined.

(** X19. One call of [sync()] always comes to rest, whatever the remote
    side answers: over a queue of [n] records it is at rest after at most
    [4 n + 7] completions. *)
Theorem sync_comes_to_rest remote w :
  pool (exec (step remote) (oldestFirst (4 * length (outbox (store w)) + 7))
          (mkConfig w [CallSync]))
  = [].
Proof.
  apply (oldest_first_drains (step remote) taskWeight);
    [apply step_lighter | apply step_no_heavier |].
  unfold load. cbn. lia.
Qed.

End DrainExtras.

(** Three queued mutations and one call of [sync()], stopped in the middle
    of the drain. *)
Lemma single_sync_single_drain_witness :
  (activeDrains (exec (step accepts) (oldestFirst 5)
                   (mkConfig (queued [putNote; postNote; deleteNote] 4) [CallSync])) ≤ 1)%nat.
Proof.
  exact (single_sync_single_drain accepts (queued [putNote; postNote; deleteNote] 4)
           (oldestFirst 5) eq_refl eq_refl queued_notes_wf queued_notes_pending).
Defined.

(* ===================================================================== *)
(** * Opening the store: further properties *)
(* ===================================================================== *)

Section InitExtras.

Variable isoDate : Z → string.

(** X21. However many calls of [init()] interleave, opening and seeding
    never delete or overwrite a stored note, never remove an object store
    and never lower the version; the only notes they can create are the two
    samples, under the keys 1 and 2. *)
Theorem init_keeps_existing_notes (st : Init.State) (calls : nat) sched :
  let st' := world (exec (Init.step isoDate) sched
                      (mkConfig st (replicate calls Init.CallInit))) in
  (∀ k x, Init.noteRecords (Init.database st) !! k = Some x →
          Init.noteRecords (Init.database st') !! k = Some x)
  ∧ (∀ k, is_Some (Init.noteRecords (Init.database st') !! k) →
          is_Some (Init.noteRecords (Init.database st) !! k) ∨ k = "1" ∨ k = "2")
  ∧ Init.objectStoreNames (Init.database st) ⊆ Init.objectStoreNames (Init.database st')
  ∧ Init.version (Init.database st) ≤ Init.version (Init.database st').
Proof.
  intros st'. subst st'.
  pose (sample := λ n : SessionNote.t, SessionNote.id n = "1" ∨ SessionNote.id n = "2").
  pose (ok := λ t : Init.Task,
          match t with Init.AwaitAdd n rest => Forall sample (n :: rest) | _ => True end).
  pose (Inv := λ c : Config Init.State Init.Task,
          ((∀ k x, Init.noteRecords (Init.database st) !! k = Some x →
                   Init.noteRecords (Init.database (world c)) !! k = Some x)
           ∧ (∀ k, is_Some (Init.noteRecords (Init.database (world c)) !! k) →
                   is_Some (Init.noteRecords (Init.database st) !! k) ∨ k = "1" ∨ k = "2")
           ∧ Init.objectStoreNames (Init.database st)
             ⊆ Init.objectStoreNames (Init.database (world c))
           ∧ Init.version (Init.database st) ≤ Init.version (Init.database (world c)))
          ∧ Forall ok (pool c)).
  assert (Inv (exec (Init.step isoDate) sched (mkConfig st (replicate calls Init.CallInit))))
    as [? _]; [| done].
  apply exec_invariant.
  - intros [s ts] i now t [(Hkeep & Hnew & Hnames & Hver) Hpool] Hi. cbn [world pool] in *.
    assert (ok t) as Ht.
    { rewrite Forall_forall in Hpool. apply Hpool. by eapply list_elem_of_lookup_2. }
    assert (Forall ok (delete i ts)) as Hdel by (by apply Forall_delete).
    assert (∀ notes s1, Forall sample notes → Forall ok (Init.addNext notes s1).2) as Hnext.
    { intros notes s1 Hn. destruct notes; cbn [Init.addNext snd].
      - constructor.
      - constructor; [exact Hn | constructor]. }
    assert (∀ notes s1, (Init.addNext notes s1).1 = s1) as Hsame by (by intros []).
    destruct t; cbn [Init.step].
    + destruct (Init.db s); cbn; (split; [done |]).
      * by rewrite app_nil_r.
      * apply Forall_app. split; [done | by repeat constructor].
    + unfold Init.openDB.
      destruct (Z.ltb_spec Init.dbVersion (Init.version (Init.database s))) as [Hhi | Hlo].
      { cbn. split; [done |]. by rewrite app_nil_r. }
      destruct (Z.ltb_spec (Init.version (Init.database s)) Init.dbVersion) as [Hlt | Hge].
      * destruct (bool_decide _); cbn.
        -- split; [| apply Forall_app; split; [done | by repeat constructor]].
           split_and!; cbn; try done; [unfold Init.upgrade; set_solver | unfold Init.dbVersion in *; lia].
        -- split; [| by rewrite app_nil_r].
           split_and!; cbn; try done; [unfold Init.upgrade; set_solver | unfold Init.dbVersion in *; lia].
      * destruct (bool_decide _); cbn.
        -- split; [done |]. apply Forall_app. split; [done | by repeat constructor].
        -- split; [done |]. by rewrite app_nil_r.
    + destruct (_ =? _)%nat.
      * rewrite Hsame. split; [done |]. apply Forall_app. split; [done |].
        apply Hnext. apply Forall_cons. split; [by left |].
        apply Forall_cons. split; [by right | by apply Forall_nil].
      * cbn. split; [done |]. by rewrite app_nil_r.
    + cbn in Ht. apply Forall_cons in Ht as [Hn Hrest].
      destruct (Init.noteRecords (Init.database s) !! SessionNote.id note) eqn:Hlook.
      * cbn. split; [done |]. by rewrite app_nil_r.
      * rewrite Hsame. cbn. split; [| apply Forall_app; split; [done | by apply Hnext]].
        split_and!; cbn; try done.
        -- intros k x Hk. rewrite lookup_insert_ne; [by apply Hkeep |].
           intros <-. apply Hkeep in Hk. congruence.
        -- intros k Hk. cbn in Hk. destruct (decide (k = SessionNote.id note)) as [-> | Hne].
           ++ right. exact Hn.
           ++ rewrite lookup_insert_ne in Hk by done. by apply Hnew.
  - split; [| apply Forall_replicate; exact I].
    cbn. split_and!; try done. intros k Hk. by left.
Qed.

(** X22. A database that [init()] cannot use stays as it is: when its
    version is above the requested one, or when it is at the requested
    version without the [sessionNotes] store, no interleaving of [init()]
    calls upgrades it, creates a store in it or seeds it; and a database of
    a newer version is never opened ([this.db] stays unset). *)
Theorem init_leaves_unusable_database (st : Init.State) (calls : nat) sched :
  Init.dbVersion < Init.version (Init.database st)
  ∨ (Init.version (Init.database st) = Init.dbVersion
     ∧ "sessionNotes" ∉ Init.objectStoreNames (Init.database st)) →
  let st' := world (exec (Init.step isoDate) sched
                      (mkConfig st (replicate calls Init.CallInit))) in
  Init.database st' = Init.database st
  ∧ Init.upgrades st' = Init.upgrades st
  ∧ (Init.dbVersion < Init.version (Init.database st) →
       Init.db st' = Init.db st ∧ Init.handles st' = Init.handles st).
Proof.
  intros Hbad st'. subst st'.
  pose (ok := λ t : Init.Task, t = Init.CallInit ∨ t = Init.AwaitOpenDB).
  pose (Inv := λ c : Config Init.State Init.Task,
          (Init.database (world c) = Init.database st
           ∧ Init.upgrades (world c) = Init.upgrades st
           ∧ (Init.dbVersion < Init.version (Init.database st) →
                Init.db (world c) = Init.db st ∧ Init.handles (world c) = Init.handles st))
          ∧ Forall ok (pool c)).
  assert (Inv (exec (Init.step isoDate) sched (mkConfig st (replicate calls Init.CallInit))))
    as [? _]; [| done].
  apply exec_invariant.
  - intros [s ts] i now t [(Hd & Hu & Hdb) Hpool] Hi. cbn [world pool] in *.
    assert (ok t) as Ht.
    { rewrite Forall_forall in Hpool. apply Hpool. by eapply list_elem_of_lookup_2. }
    assert (Forall ok (delete i ts)) as Hdel by (by apply Forall_delete).
    destruct Ht as [-> | ->]; cbn [Init.step].
    + destruct (Init.db s) eqn:Hdbs; cbn;
        (split; [split_and!; cbn; [done | done | intros Hv; rewrite Hdbs; exact (Hdb Hv)] |]).
      * by rewrite app_nil_r.
      * apply Forall_app. split; [done |].
        apply Forall_cons. split; [by right | by apply Forall_nil].
    + unfold Init.openDB. rewrite Hd.
      destruct (Z.ltb_spec Init.dbVersion (Init.version (Init.database st))) as [Hhi | Hlo].
      { cbn. split; [done |]. by rewrite app_nil_r. }
      destruct Hbad as [Hhi | [Hv Hno]]; [lia |].
      rewrite Hv, Z.ltb_irrefl. rewrite bool_decide_eq_false_2 by done. cbn.
      split; [| by rewrite app_nil_r]. split_and!; try done. lia.
  - split; [done |]. apply Forall_replicate. by left.
Qed.

End InitExtras.

(** Two interleaved calls on a fresh profile. *)
Lemma init_upgrades_at_most_once_witness :
  (Init.upgrades (world (exec (Init.step (λ _, "")) (oldestFirst 9)
                          (mkConfig Init.fresh [Init.CallInit; Init.CallInit]))) ≤ 1)%nat.
Proof.
  exact (init_upgrades_at_most_once (λ _, "") (oldestFirst 9) Init.fresh
           [Init.CallInit; Init.CallInit] eq_refl).
Defined.

(** A note the user stored survives two interleaved calls. *)
Lemma init_keeps_existing_notes_witness :
  Init.noteRecords
    (Init.database
       (world (exec (Init.step (λ _, "")) (oldestFirst 9)
                 (mkConfig
                    (Init.mkState
                       (Init.mkDatabase 3 {["sessionNotes"]}
                          {["77" := SessionNote.mk "77" "Ann" "kept" 5 "d"]}) None 0 0)
                    (replicate 2 Init.CallInit))))) !! "77"
  = Some (SessionNote.mk "77" "Ann" "kept" 5 "d").
Proof.
  exact (proj1 (init_keeps_existing_notes (λ _, "")
                  (Init.mkState
                     (Init.mkDatabase 3 {["sessionNotes"]}
                        {["77" := SessionNote.mk "77" "Ann" "kept" 5 "d"]}) None 0 0)
                  2 (oldestFirst 9))
           "77" (SessionNote.mk "77" "Ann" "kept" 5 "d") eq_refl).
Defined.

(** A database left behind by a newer release of the application. *)
Lemma init_leaves_unusable_database_witness :
  Init.db (world (exec (Init.step (λ _, "")) (oldestFirst 9)
                    (mkConfig (Init.mkState (Init.mkDatabase 4 ∅ ∅) None 0 0)
                       (replicate 2 Init.CallInit))))
  = None.
Proof.
  refine (proj1 (proj2 (proj2 (init_leaves_unusable_database (λ _, "")
            (Init.mkState (Init.mkDatabase 4 ∅ ∅) None 0 0) 2 (oldestFirst 9) _)) _)).
  - left. reflexivity.
  - reflexivity.
Defined.
